(** * Code Amplifier: analysis pipeline and execution poller

    A shallow embedding of the logic of [src/App.tsx] (the [validateCode]
    batch with its [processFile] worker, and [runCode] with its
    [checkResult] poller) and of [processAnalysisResult] from the
    [ValidationResults] component, followed by the properties the
    specification states about them.

    JavaScript strings are sequences of UTF-16 code units.  The embedding
    represents a string as a list of 8-bit characters, that is, it covers
    the strings whose code units are all below 256; the character classes
    below ([\d], [\w], the white space removed by [trim], the letters
    changed by [toLowerCase]) are the restrictions of the ECMAScript ones
    to that range. *)

From Stdlib Require Import List Ascii String ZArith NArith Lia Bool Arith.
From Stdlib Require Import Permutation DecimalString.
Import ListNotations.

(** ** Strings and numbers as the JavaScript runtime has them *)

Module JS.

Abbreviation str := (list ascii) (only parsing).

(** A string literal of the source. *)
Definition lit (s : string) : str := list_ascii_of_string s.

Definition char_code (c : ascii) : N := N_of_ascii c.

Definition newline : ascii := ascii_of_N 10.

Definition between (lo hi : N) (c : ascii) : bool :=
  (N.leb lo (char_code c) && N.leb (char_code c) hi)%bool.

(** [\d] *)
Definition is_digit (c : ascii) : bool := between 48 57 c.

(** [\w], that is [[A-Za-z0-9_]] *)
Definition is_word (c : ascii) : bool :=
  (between 65 90 c || between 97 122 c || is_digit c || N.eqb (char_code c) 95)%bool.

(** [[\s\S]]: every code unit. *)
Definition any_char (_ : ascii) : bool := true.

(** WhiteSpace and LineTerminator code units: TAB, LF, VT, FF, CR, SP
    and NBSP.  This is what [trim] strips and what [parseInt] skips. *)
Definition is_space (c : ascii) : bool :=
  (between 9 13 c || N.eqb (char_code c) 32 || N.eqb (char_code c) 160)%bool.

Fixpoint trimStart (s : str) : str :=
  match s with
  | c :: s' => if is_space c then trimStart s' else s
  | [] => []
  end.

Definition trimEnd (s : str) : str := rev (trimStart (rev s)).

(** [String.prototype.trim] *)
Definition trim (s : str) : str := trimEnd (trimStart s).

(** Upper-case letters: [A-Z], and the accented capitals U+00C0..U+00DE
    (U+00D7, the multiplication sign, is not a letter). *)
Definition is_upper (c : ascii) : bool :=
  (between 65 90 c || (between 192 222 c && negb (N.eqb (char_code c) 215)))%bool.

Definition lower_char (c : ascii) : ascii :=
  if is_upper c then ascii_of_N (char_code c + 32) else c.

(** [String.prototype.toLowerCase] *)
Definition toLowerCase (s : str) : str := map lower_char s.

Fixpoint startsWith (s p : str) : bool :=
  match p, s with
  | [], _ => true
  | a :: p', b :: s' => (Ascii.eqb a b && startsWith s' p')%bool
  | _ :: _, [] => false
  end.

(** [String.prototype.includes] *)
Fixpoint includes (s needle : str) : bool :=
  (startsWith s needle ||
   match s with
   | [] => false
   | _ :: s' => includes s' needle
   end)%bool.

(** [String.prototype.split] with a one-character separator: the empty
    string splits into one empty piece. *)
Fixpoint split (sep : ascii) (s : str) : list str :=
  match s with
  | [] => [[]]
  | c :: s' =>
      if Ascii.eqb c sep then [] :: split sep s'
      else match split sep s' with
           | piece :: pieces => (c :: piece) :: pieces
           | [] => [[c]]
           end
  end.

(** Truthiness of a string: non-empty. *)
Definition truthy (s : str) : bool :=
  match s with [] => false | _ :: _ => true end.

(** A Number, as far as this program meets them: NaN or an integer
    (negative zero is not told apart from zero).  Digit strings too
    long for a double are rounded by the runtime; the embedding keeps
    them exact, which the clamp to [0, 100] cannot tell apart, since
    rounding is monotone and fixes 0 and 100. *)
Inductive number :=
| NaN
| Num (z : Z).

Definition Math_max (a b : number) : number :=
  match a, b with
  | Num x, Num y => Num (Z.max x y)
  | _, _ => NaN
  end.

Definition Math_min (a b : number) : number :=
  match a, b with
  | Num x, Num y => Num (Z.min x y)
  | _, _ => NaN
  end.

(** Value of a digit in radix 10 or 16. *)
Definition digit_value (radix : Z) (c : ascii) : option Z :=
  let n := Z.of_N (char_code c) in
  let v :=
    if is_digit c then Some (n - 48)%Z
    else if between 97 122 c then Some (n - 87)%Z
    else if between 65 90 c then Some (n - 55)%Z
    else None in
  match v with
  | Some d => if (d <? radix)%Z then Some d else None
  | None => None
  end.

(** The longest prefix of radix digits, read as a number; [None] when
    that prefix is empty. *)
Fixpoint read_digits (radix : Z) (acc : option Z) (s : str) : option Z :=
  match s with
  | [] => acc
  | c :: s' =>
      match digit_value radix c with
      | Some d =>
          read_digits radix
            (Some (radix * match acc with Some a => a | None => 0 end + d)%Z) s'
      | None => acc
      end
  end.

(** [parseInt] with no radix argument: leading white space, a sign, a
    [0x] prefix selecting radix 16, then the longest run of digits. *)
Definition parseInt (s : str) : number :=
  let s1 := trimStart s in
  let '(sign, s2) :=
    match s1 with
    | c :: t =>
        if Ascii.eqb c "-" then ((-1)%Z, t)
        else if Ascii.eqb c "+" then (1%Z, t)
        else (1%Z, s1)
    | [] => (1%Z, s1)
    end in
  let '(radix, s3) :=
    match s2 with
    | z :: x :: t =>
        if (Ascii.eqb z "0" && (Ascii.eqb x "x" || Ascii.eqb x "X"))%bool
        then (16%Z, t) else (10%Z, s2)
    | _ => (10%Z, s2)
    end in
  match read_digits radix None s3 with
  | Some v => Num (sign * v)
  | None => NaN
  end.

(** Decimal text of a non-negative integer, as in a template literal. *)
Definition nat_to_str (n : nat) : str :=
  lit (NilZero.string_of_uint (Nat.to_uint n)).

(** [array.pop()] on a fresh array: its last element, [None]
    (undefined) when it is empty. *)
Definition pop (l : list str) : option str :=
  match rev l with
  | x :: _ => Some x
  | [] => None
  end.

(** [s || d], where [s] is a string or undefined. *)
Definition or_str (s : option str) (d : str) : str :=
  match s with
  | Some (c :: t) => c :: t
  | _ => d
  end.

(** [array.filter((_, i) => i !== index)] *)
Definition filter_index {A : Type} (index : nat) (l : list A) : list A :=
  map snd
    (filter (fun p => negb (Nat.eqb (fst p) index))
       (combine (seq 0 (List.length l)) l)).

End JS.

(** ** Regular expressions *)

(** A backtracking matcher for the constructs the source's patterns use.
    Matching at a position yields every way to match, in the order in
    which a backtracking engine tries them; the first one is the match. *)

Module RegExp.
Import JS.

Inductive regex :=
| Eps
| Chr (c : ascii)
| Cls (p : ascii -> bool)
| Cat (r1 r2 : regex)
| Opt (r : regex)                (* r?   greedy *)
| Plus (p : ascii -> bool)       (* [p]+ greedy *)
| StarLazy (p : ascii -> bool)   (* [p]*? lazy *)
| Group (r : regex).             (* the capturing group *)

(** A literal run of characters. *)
Fixpoint Lit (s : str) : regex :=
  match s with
  | [] => Eps
  | c :: s' => Cat (Chr c) (Lit s')
  end.

(** Matched text, value of capture group 1 ([None] is undefined), and
    the rest of the input. *)
Abbreviation result := (str * option str * str)%type (only parsing).

(** [p]* taking as much as possible first. *)
Fixpoint star_greedy (p : ascii -> bool) (s : str) : list (str * str) :=
  match s with
  | c :: s' =>
      if p c
      then map (fun '(a, t) => (c :: a, t)) (star_greedy p s') ++ [([], s)]
      else [([], s)]
  | [] => [([], [])]
  end.

Definition plus_greedy (p : ascii -> bool) (s : str) : list (str * str) :=
  match s with
  | c :: s' =>
      if p c then map (fun '(a, t) => (c :: a, t)) (star_greedy p s') else []
  | [] => []
  end.

(** [p]*? taking as little as possible first. *)
Fixpoint star_lazy (p : ascii -> bool) (s : str) : list (str * str) :=
  ([], s) ::
  match s with
  | c :: s' =>
      if p c then map (fun '(a, t) => (c :: a, t)) (star_lazy p s') else []
  | [] => []
  end.

Definition later (c1 c2 : option str) : option str :=
  match c2 with Some _ => c2 | None => c1 end.

Fixpoint matches (r : regex) (s : str) : list result :=
  match r with
  | Eps => [([], None, s)]
  | Chr c =>
      match s with
      | x :: s' => if Ascii.eqb x c then [([x], None, s')] else []
      | [] => []
      end
  | Cls p =>
      match s with
      | x :: s' => if p x then [([x], None, s')] else []
      | [] => []
      end
  | Cat r1 r2 =>
      flat_map
        (fun '(a, ca, s1) =>
           map (fun '(b, cb, s2) => (a ++ b, later ca cb, s2)) (matches r2 s1))
        (matches r1 s)
  | Opt r1 => matches r1 s ++ [([], None, s)]
  | Plus p => map (fun '(a, t) => (a, None, t)) (plus_greedy p s)
  | StarLazy p => map (fun '(a, t) => (a, None, t)) (star_lazy p s)
  | Group r1 => map (fun '(a, _, t) => (a, Some a, t)) (matches r1 s)
  end.

(** The match at the current position, if any. *)
Definition exec_here (r : regex) (s : str) : option result :=
  hd_error (matches r s).

(** The pattern is tried at each position from the left: the text
    before the first position where [here] succeeds, and what it found
    there. *)
Fixpoint scan {A : Type} (here : str -> option A) (s : str) : option (str * A) :=
  match here s with
  | Some found => Some ([], found)
  | None =>
      match s with
      | [] => None
      | c :: s' =>
          match scan here s' with
          | Some (pre, found) => Some (c :: pre, found)
          | None => None
          end
      end
  end.

(** The leftmost match: the text before it and the match. *)
Definition search (r : regex) (s : str) : option (str * result) :=
  scan (exec_here r) s.

(** [s.match(r)] for a pattern without the [g] flag: [None] is null,
    otherwise the matched text and capture group 1. *)
Definition str_match (r : regex) (s : str) : option (str * option str) :=
  match search r s with
  | Some (_, (whole, cap, _)) => Some (whole, cap)
  | None => None
  end.

(** [s.replace(r, repl)] for a pattern without the [g] flag. *)
Definition replace (r : regex) (repl : str) (s : str) : str :=
  match search r s with
  | Some (pre, (_, _, rest)) => pre ++ repl ++ rest
  | None => s
  end.

(** [s.replace(r, repl)] for a pattern with the [g] flag: the pattern is
    tried at each position from the left; a match is replaced and the
    scan resumes where it ended (one character further, which is kept,
    after an empty match).  Every round consumes a character, so the
    length of the string plus one is fuel enough. *)
Fixpoint replace_g_from (fuel : nat) (r : regex) (repl : str) (s : str) : str :=
  match fuel with
  | O => s
  | S fuel' =>
      match exec_here r s with
      | Some (_ :: _, _, rest) => repl ++ replace_g_from fuel' r repl rest
      | Some ([], _, _) =>
          repl ++
          match s with
          | c :: s' => c :: replace_g_from fuel' r repl s'
          | [] => []
          end
      | None =>
          match s with
          | c :: s' => c :: replace_g_from fuel' r repl s'
          | [] => []
          end
      end
  end.

Definition replace_g (r : regex) (repl : str) (s : str) : str :=
  replace_g_from (S (List.length s)) r repl s.

End RegExp.

(** ** Values received from the network *)

Module Json.
Import JS.

(** What [response.json()] resolves to. *)
Unset Elimination Schemes.
Inductive value :=
| Undefined
| Null
| Bool (b : bool)
| Number (n : number)
| String (s : str)
| Array (items : list value)
| Object (props : list (str * value)).
Set Elimination Schemes.

Definition str_eqb (a b : str) : bool :=
  if list_eq_dec ascii_dec a b then true else false.

Fixpoint lookup (key : str) (props : list (str * value)) : value :=
  match props with
  | [] => Undefined
  | (k, v) :: rest => if str_eqb k key then v else lookup key rest
  end.

(** [v.key] for a key that no built-in prototype defines
    ([choices], [message], [content]). *)
Definition get (key : str) (v : value) : value :=
  match v with
  | Object props => lookup key props
  | _ => Undefined
  end.

(** [v[i]] *)
Definition at_index (i : nat) (v : value) : value :=
  match v with
  | Array items => nth i items Undefined
  | String s =>
      match nth_error s i with
      | Some c => String [c]
      | None => Undefined
      end
  | Object props => lookup (nat_to_str i) props
  | _ => Undefined
  end.

(** [v?.access]: undefined when [v] is null or undefined. *)
Definition optional (access : value -> value) (v : value) : value :=
  match v with
  | Undefined | Null => Undefined
  | _ => access v
  end.

Definition truthy (v : value) : bool :=
  match v with
  | Undefined | Null => false
  | Bool b => b
  | Number NaN => false
  | Number (Num z) => negb (Z.eqb z 0)
  | String s => JS.truthy s
  | Array _ | Object _ => true
  end.

(** [a || b] *)
Definition or_else (a b : value) : value := if truthy a then a else b.

End Json.

(** ** App.tsx *)

(** Modelled from the spec: the declarations of [./types] are not among
    the sources; the three records below have the fields that the object
    literals of [App.tsx] give them (SourceFile, AnalysisOutcome and
    BatchProgress in the specification's data model). *)

Module FileWithContent.
Record t := make
  { name : JS.str; path : JS.str; content : JS.str; extension : JS.str }.
End FileWithContent.

Module ValidationResult.
Record t := make
  { fileName : JS.str;
    path : JS.str;
    code : JS.str;
    result : JS.str;
    score : JS.number;
    correctedCode : option JS.str;   (* [None] is undefined *)
    hasCorrections : bool }.
End ValidationResult.

Module StreamingState.
Record t := make
  { isAnalyzing : bool; currentFile : JS.str; currentStep : JS.str }.
End StreamingState.

(** The browser's [File] objects, as far as the code reads them:
    [path] is the non-standard property that [(file as any).path] reads,
    [None] when it is undefined; [text] is what [file.text()] resolves
    to. *)
Module File.
Record t := make
  { name : JS.str;
    webkitRelativePath : JS.str;
    path : option JS.str;
    size : nat;
    text : JS.str }.
End File.

Module App.
Import JS RegExp.

(** A thrown value, as the [catch] clauses see it: an [Error] with its
    message, or anything else. *)
Inductive thrown :=
| ErrorObject (message : str)
| NotAnError.

(** The component's state, and the console. *)
Record AppState := mkApp
  { files : list FileWithContent.t;
    validationResults : list ValidationResult.t;
    streamingState : StreamingState.t;
    codeToRun : str;
    executionOutput : str;
    console : list str }.

Definition setValidationResults
    (f : list ValidationResult.t -> list ValidationResult.t) (st : AppState) :=
  mkApp st.(files) (f st.(validationResults)) st.(streamingState)
        st.(codeToRun) st.(executionOutput) st.(console).

Definition setStreamingState
    (f : StreamingState.t -> StreamingState.t) (st : AppState) :=
  mkApp st.(files) st.(validationResults) (f st.(streamingState))
        st.(codeToRun) st.(executionOutput) st.(console).

Definition setExecutionOutput (out : str) (st : AppState) :=
  mkApp st.(files) st.(validationResults) st.(streamingState)
        st.(codeToRun) out st.(console).

Definition console_error (msg : str) (st : AppState) :=
  mkApp st.(files) st.(validationResults) st.(streamingState)
        st.(codeToRun) st.(executionOutput) (st.(console) ++ [msg]).

(** *** validateCode *)

(** What the network does with one request: [fetch] rejects, or resolves
    to a response with a status whose [json()] rejects or resolves. *)
Inductive body :=
| JsonRejected (e : thrown)
| JsonParsed (data : Json.value).

Inductive reply :=
| FetchRejected (e : thrown)
| Responded (status : nat) (b : body).

(** [response.ok] *)
Definition ok (status : nat) : bool :=
  (Nat.leb 200 status && Nat.leb status 299)%bool.

(** [/<SCORE:(\d+)>/] *)
Definition score_re : regex :=
  Cat (Lit (lit "<SCORE:")) (Cat (Group (Plus is_digit)) (Chr ">")).

(** [/```(?:\w+\n)?([\s\S]*?)```/] *)
Definition corrected_code_re : regex :=
  Cat (Lit (lit "```"))
    (Cat (Opt (Cat (Plus is_word) (Chr newline)))
       (Cat (Group (StarLazy any_char)) (Lit (lit "```")))).

(** [/```[\s\S]*?```/] *)
Definition fence_re : regex :=
  Cat (Lit (lit "```")) (Cat (StarLazy any_char) (Lit (lit "```"))).

Definition no_response : str := lit "No response received.".

(** [data?.choices?.[0]?.message?.content] *)
Definition content_of (data : Json.value) : Json.value :=
  Json.optional (Json.get (lit "content"))
    (Json.optional (Json.get (lit "message"))
       (Json.optional (Json.at_index 0)
          (Json.optional (Json.get (lit "choices")) data))).

(** Messages of the TypeErrors the runtime raises (V8's wording). *)
Definition match_not_a_function : str :=
  lit "aiResponse.match is not a function".
Definition trim_of_undefined : str :=
  lit "Cannot read properties of undefined (reading 'trim')".

(** Lines 85-86: the score. *)
Definition extract_score (aiResponse : str) : number :=
  let scoreMatch := str_match score_re aiResponse in
  let digits :=
    match scoreMatch with
    | Some (_, Some d) => if truthy d then d else lit "0"
    | _ => lit "0"
    end in
  Math_min (Math_max (parseInt digits) (Num 0)) (Num 100).

(** Lines 88-89: the corrected code; reading [.trim] off an undefined
    group would throw. *)
Definition extract_correctedCode (aiResponse : str) : thrown + option str :=
  match str_match corrected_code_re aiResponse with
  | Some (_, Some inner) => inr (Some (trim inner))
  | Some (_, None) => inl (ErrorObject trim_of_undefined)
  | None => inr None
  end.

(** Lines 85-99: from the response text to the stored result. *)
Definition build_result (file : FileWithContent.t) (aiResponse : str)
  : thrown + ValidationResult.t :=
  let score := extract_score aiResponse in
  match extract_correctedCode aiResponse with
  | inl e => inl e
  | inr correctedCode =>
      inr (ValidationResult.make
             file.(FileWithContent.name)
             file.(FileWithContent.path)
             file.(FileWithContent.content)
             (trim (replace fence_re [] aiResponse))
             score
             correctedCode
             (match correctedCode with
              | Some c => truthy c
              | None => false
              end))
  end.

(** Lines 83-99: from the parsed body to the stored result. *)
Definition handle_data (file : FileWithContent.t) (data : Json.value)
  : thrown + ValidationResult.t :=
  match Json.or_else (content_of data) (Json.String no_response) with
  | Json.String aiResponse => build_result file aiResponse
  | _ => inl (ErrorObject match_not_a_function)
  end.

(** Line 110: [error instanceof Error ? error.message : "Failed to
    analyze code"]. *)
Definition error_text (e : thrown) : str :=
  match e with
  | ErrorObject message => message
  | NotAnError => lit "Failed to analyze code"
  end.

(** Lines 104-114: the result stored by the [catch] clause. *)
Definition error_result (file : FileWithContent.t) (e : thrown)
  : ValidationResult.t :=
  ValidationResult.make
    file.(FileWithContent.name)
    file.(FileWithContent.path)
    file.(FileWithContent.content)
    (lit "Error: " ++ error_text e)
    (Num 0)
    None
    false.

Definition push_result (r : ValidationResult.t) : AppState -> AppState :=
  setValidationResults (fun prev => prev ++ [r]).

(** Lines 102-115: the [catch] clause. *)
Definition on_catch (file : FileWithContent.t) (e : thrown) (st : AppState)
  : AppState :=
  push_result (error_result file e)
    (console_error
       (lit "Error validating " ++ file.(FileWithContent.path) ++ lit ":") st).

Definition server_error (status : nat) : thrown :=
  ErrorObject (lit "Server error: " ++ nat_to_str status).

(** A [processFile] call suspended at one of its two [await]s, together
    with what the network is going to answer. *)
Inductive task :=
| AwaitFetch (file : FileWithContent.t) (r : reply)
| AwaitJson (file : FileWithContent.t) (b : body).

(** Lines 56-59: the synchronous start of [processFile]. *)
Definition processFile_start (file : FileWithContent.t) (r : reply)
    (st : AppState) : task * AppState :=
  (AwaitFetch file r,
   setStreamingState
     (fun prev =>
        StreamingState.make prev.(StreamingState.isAnalyzing)
          file.(FileWithContent.path) (lit "Analyzing code..."))
     st).

(** A suspended call resumes and runs to its next [await] or to its
    end. *)
Definition resume (t : task) (st : AppState) : option task * AppState :=
  match t with
  | AwaitFetch file (FetchRejected e) => (None, on_catch file e st)
  | AwaitFetch file (Responded status b) =>
      if ok status then (Some (AwaitJson file b), st)
      else (None, on_catch file (server_error status) st)
  | AwaitJson file (JsonRejected e) => (None, on_catch file e st)
  | AwaitJson file (JsonParsed data) =>
      match handle_data file data with
      | inr r => (None, push_result r st)
      | inl e => (None, on_catch file e st)
      end
  end.

(** One call of [processFile] from its start to its end, when nothing
    else runs in between. *)
Definition processFile (file : FileWithContent.t) (r : reply) (st : AppState)
  : AppState :=
  let '(t, st0) := processFile_start file r st in
  match resume t st0 with
  | (None, st1) => st1
  | (Some u, st1) => snd (resume u st1)
  end.

(** The event loop resumes any one of the suspended calls. *)
Inductive step : list task * AppState -> list task * AppState -> Prop :=
| step_resume before t after st t' st' :
    resume t st = (t', st') ->
    step (before ++ t :: after, st)
         (before ++ match t' with Some u => [u] | None => [] end ++ after, st').

Inductive steps : list task * AppState -> list task * AppState -> Prop :=
| steps_refl c : steps c c
| steps_next c1 c2 c3 : step c1 c2 -> steps c2 c3 -> steps c1 c3.

(** [files.map(processFile)]: every call runs to its [fetch], in the
    order of the list. *)
Fixpoint start_all (net : nat -> reply) (i : nat)
    (fs : list FileWithContent.t) (st : AppState) : list task * AppState :=
  match fs with
  | [] => ([], st)
  | f :: fs' =>
      let '(t, st1) := processFile_start f (net i) st in
      let '(ts, st2) := start_all net (S i) fs' st1 in
      (t :: ts, st2)
  end.

Definition analyzing : StreamingState.t :=
  StreamingState.make true [] (lit "Initializing...").
Definition idle : StreamingState.t := StreamingState.make false [] [].

(** [validateCode], where [net i] is the network's answer to the
    request for the file at index [i]: the runs from [st] to the state
    in which [Promise.all] has resolved. *)
Inductive validateCode (net : nat -> reply) : AppState -> AppState -> Prop :=
| validateCode_no_files st :
    List.length st.(files) = 0 ->
    validateCode net st st
| validateCode_batch st st' :
    List.length st.(files) <> 0 ->
    steps (start_all net 0 st.(files)
             (setValidationResults (fun _ => [])
                (setStreamingState (fun _ => analyzing) st)))
          ([], st') ->
    validateCode net st (setStreamingState (fun _ => idle) st').

(** Lines 58-101 without their effects: what the [try] block of
    [processFile] comes to, given the network's answer: the result it
    stores, or the value it throws. *)
Definition try_block (file : FileWithContent.t) (r : reply)
  : thrown + ValidationResult.t :=
  match r with
  | FetchRejected e => inl e
  | Responded status b =>
      if ok status then
        match b with
        | JsonRejected e => inl e
        | JsonParsed data => handle_data file data
        end
      else inl (server_error status)
  end.

(** The result [processFile] stores for a file, given the network's
    answer. *)
Definition outcome (file : FileWithContent.t) (r : reply) : ValidationResult.t :=
  match try_block file r with
  | inr v => v
  | inl e => error_result file e
  end.

(** The results of the files of a batch, in the order of the files;
    [i] is the index of the first one. *)
Fixpoint outcomes (net : nat -> reply) (i : nat) (fs : list FileWithContent.t)
  : list ValidationResult.t :=
  match fs with
  | [] => []
  | f :: fs' => outcome f (net i) :: outcomes net (S i) fs'
  end.

(** The result a suspended call is going to store. *)
Definition pending_outcome (t : task) : ValidationResult.t :=
  match t with
  | AwaitFetch file r => outcome file r
  | AwaitJson file b => outcome file (Responded 200 b)
  end.

(** A run that resumes the calls in the order of the list. *)
Fixpoint run_in_order (ts : list task) (st : AppState) : AppState :=
  match ts with
  | [] => st
  | t :: ts' =>
      match resume t st with
      | (None, st1) => run_in_order ts' st1
      | (Some u, st1) =>
          match resume u st1 with
          | (_, st2) => run_in_order ts' st2
          end
      end
  end.

(** *** runCode *)

(** The judge's answer to the submission: the POST rejects, or resolves
    to a response with its [data]. *)
Inductive submit_reply :=
| SubmitRejected (e : thrown)
| SubmitResponded (data : Json.value).

(** The judge's answer to one status request: the GET rejects (or its
    body has no [status], so that reading [status.id] throws), or it
    carries a status id with [stdout] and [stderr], each a string or
    null. *)
Record poll_data := mkPoll
  { status_id : Z; stdout : option str; stderr : option str }.

Inductive poll_reply :=
| PollRejected
| PollResponded (data : poll_data).

(** A pending [setTimeout(checkResult, delay)]; the callback closes over
    the submission token. *)
Record timer := mkTimer { token : Json.value; delay : nat }.

(** [stdout || "Error: " + stderr] *)
Definition terminal_text (d : poll_data) : str :=
  let error_text :=
    lit "Error: " ++
    match d.(stderr) with Some e => e | None => lit "null" end in
  match d.(stdout) with
  | Some out => if truthy out then out else error_text
  | None => error_text
  end.

(** Lines 135-143: one run of [checkResult].  A rejection leaves the
    callback's promise rejected, which nothing observes. *)
Definition checkResult (tok : Json.value) (r : poll_reply) (st : AppState)
  : list timer * AppState :=
  match r with
  | PollRejected => ([], st)
  | PollResponded d =>
      if (d.(status_id) <=? 2)%Z
      then ([mkTimer tok 1000], st)
      else ([], setExecutionOutput (terminal_text d) st)
  end.

(** A status that is not terminal yet. *)
Definition still_running (r : poll_reply) : bool :=
  match r with
  | PollResponded d => (d.(status_id) <=? 2)%Z
  | PollRejected => false
  end.

(** Lines 123-150: [runCode] up to the moment it returns. *)
Definition runCode (r : submit_reply) (st : AppState) : list timer * AppState :=
  let st1 := setExecutionOutput (lit "Running...") st in
  let failed :=
    ([], setExecutionOutput (lit "Execution failed.")
           (console_error (lit "Error running code:") st1)) in
  match r with
  | SubmitRejected _ => failed
  | SubmitResponded Json.Undefined | SubmitResponded Json.Null => failed
  | SubmitResponded data =>
      ([mkTimer (Json.get (lit "token") data) 1000], st1)
  end.

(** The timers fire one after the other; the judge's answers are taken
    from a script, one per status request.  The outcome is the number of
    requests made, the timers still pending and the state. *)
Fixpoint fire_timers (judge : list poll_reply) (polls : nat)
    (timers : list timer) (st : AppState) : nat * list timer * AppState :=
  match judge, timers with
  | r :: judge', t :: timers' =>
      let '(scheduled, st') := checkResult t.(token) r st in
      fire_timers judge' (S polls) (timers' ++ scheduled) st'
  | _, _ => (polls, timers, st)
  end.

Definition run_and_poll (submit : submit_reply) (judge : list poll_reply)
    (st : AppState) : nat * list timer * AppState :=
  let '(timers, st1) := runCode submit st in
  fire_timers judge 0 timers st1.

(** *** handleFilesSelected *)

Definition setFiles (fs : list FileWithContent.t) (st : AppState) :=
  mkApp fs st.(validationResults) st.(streamingState)
        st.(codeToRun) st.(executionOutput) st.(console).

(** Line 40: [file.name.split(".").pop() || ""]. *)
Definition extension_of (name : str) : str :=
  or_str (pop (split "." name)) [].

(** Lines 36-41: one file read. *)
Definition read_file (file : File.t) : FileWithContent.t :=
  FileWithContent.make
    file.(File.name)
    (or_str (Some (or_str file.(File.path) file.(File.webkitRelativePath)))
       file.(File.name))
    file.(File.text)
    (extension_of file.(File.name)).

(** Lines 34-46, once every [file.text()] has resolved. *)
Definition handleFilesSelected (selectedFiles : list File.t) (st : AppState)
  : AppState :=
  setValidationResults (fun _ => [])
    (setFiles (map read_file selectedFiles) st).

(** Line 103: what the [catch] clause writes to the console. *)
Definition error_log (file : FileWithContent.t) : str :=
  lit "Error validating " ++ file.(FileWithContent.path) ++ lit ":".

End App.

(** ** FileUploader *)

Module FileUploader.
Import JS.

Record UploadedFile := mkUploaded
  { file : File.t; path : str; size : nat }.

Inductive mode := FileMode | FolderMode.

(** The component's state, and the progress variables of the
    intervals that [onDrop] has started and that are still running. *)
Record Instance := mkInstance
  { uploadMode : mode;
    uploadedFiles : list UploadedFile;
    uploadProgress : option nat;     (* [None] is null *)
    intervals : list nat }.

(** Lines 42-46. *)
Definition entry (f : File.t) : UploadedFile :=
  mkUploaded f
    (or_str (Some f.(File.webkitRelativePath)) f.(File.name))
    f.(File.size).

Section Props.
(** The parent's state and the [onFilesSelected] prop. *)
Context {Parent : Type}.
Variable onFilesSelected : list File.t -> Parent -> Parent.

(** Lines 38-58: [onDrop], up to the start of the interval. *)
Definition onDrop (acceptedFiles : list File.t) (c : Instance) (p : Parent)
  : Instance * Parent :=
  (mkInstance c.(uploadMode)
     (c.(uploadedFiles) ++ map entry acceptedFiles)
     (Some 0)
     (c.(intervals) ++ [0]),
   onFilesSelected acceptedFiles p).

(** Lines 62-66. *)
Definition removeFile (index : nat) (c : Instance) (p : Parent)
  : Instance * Parent :=
  let updatedFiles := filter_index index c.(uploadedFiles) in
  (mkInstance c.(uploadMode) updatedFiles c.(uploadProgress) c.(intervals),
   onFilesSelected (map file updatedFiles) p).

(** Lines 68-72. *)
Definition clearAllFiles (c : Instance) (p : Parent) : Instance * Parent :=
  (mkInstance c.(uploadMode) [] None c.(intervals),
   onFilesSelected [] p).
End Props.

(** Lines 53-57: the interval at position [i] fires. *)
Definition tick (i : nat) (c : Instance) : Instance :=
  match nth_error c.(intervals) i with
  | None => c
  | Some progress =>
      let progress := progress + 10 in
      mkInstance c.(uploadMode) c.(uploadedFiles) (Some progress)
        (if Nat.leb 100 progress
         then firstn i c.(intervals) ++ skipn (S i) c.(intervals)
         else firstn i c.(intervals) ++ progress :: skipn (S i) c.(intervals))
  end.

End FileUploader.

(** ** ValidationResults: processAnalysisResult *)

Module ValidationResults.
Import JS RegExp.

(** The keys of the [sections] object. *)
Inductive section := Analysis | Suggestions | Security | Performance.

Record sections := mkSections
  { analysis : list str;
    suggestions : list str;
    security : list str;
    performance : list str }.

Definition empty_sections : sections := mkSections [] [] [] [].

(** [sections[key]] *)
Definition items (key : section) (secs : sections) : list str :=
  match key with
  | Analysis => secs.(analysis)
  | Suggestions => secs.(suggestions)
  | Security => secs.(security)
  | Performance => secs.(performance)
  end.

(** [sections[key].push(line)] *)
Definition push (key : section) (line : str) (secs : sections) : sections :=
  match key with
  | Analysis =>
      mkSections (secs.(analysis) ++ [line]) secs.(suggestions)
        secs.(security) secs.(performance)
  | Suggestions =>
      mkSections secs.(analysis) (secs.(suggestions) ++ [line])
        secs.(security) secs.(performance)
  | Security =>
      mkSections secs.(analysis) secs.(suggestions)
        (secs.(security) ++ [line]) secs.(performance)
  | Performance =>
      mkSections secs.(analysis) secs.(suggestions)
        secs.(security) (secs.(performance) ++ [line])
  end.

(** [/<SCORE:\d+>/g] *)
Definition score_tag_re : regex :=
  Cat (Lit (lit "<SCORE:")) (Cat (Plus is_digit) (Chr ">")).

(** [/<think>[\s\S]*?<\/think>/g] *)
Definition think_re : regex :=
  Cat (Lit (lit "<think>")) (Cat (StarLazy any_char) (Lit (lit "</think>"))).

(** Lines 51-54. *)
Definition cleanedResult (result : str) : str :=
  trim (replace_g think_re [] (replace_g score_tag_re [] result)).

(** Lines 68-75: the section after looking at a line. *)
Definition section_after (currentSection : section) (line : str) : section :=
  let lowerLine := toLowerCase line in
  if (includes lowerLine (lit "security") ||
      includes lowerLine (lit "vulnerability"))%bool then Security
  else if (includes lowerLine (lit "performance") ||
           includes lowerLine (lit "optimization"))%bool then Performance
  else if (includes lowerLine (lit "suggestion") ||
           includes lowerLine (lit "recommendation"))%bool then Suggestions
  else currentSection.

(** Lines 67-80: the body of the [forEach]. *)
Definition visit (acc : section * sections) (line : str) : section * sections :=
  let currentSection := section_after (fst acc) line in
  (currentSection,
   if truthy (trim line)
   then push currentSection (trim line) (snd acc)
   else snd acc).

(** Lines 57-82: the sections built from the lines. *)
Definition classify (lines : list str) : sections :=
  snd (fold_left visit lines (Analysis, empty_sections)).

Definition processAnalysisResult (result : str) : sections :=
  classify (split newline (cleanedResult result)).

(** Lines 26-30: [getStyles]. *)
Record styles := mkStyles { text : str; bg : str; border : str }.

(** [score >= bound]; a comparison with NaN is false. *)
Definition at_least (score : number) (bound : Z) : bool :=
  match score with
  | Num z => (bound <=? z)%Z
  | NaN => false
  end.

Definition getStyles (score : number) : styles :=
  if at_least score 90
  then mkStyles (lit "text-emerald-400") (lit "bg-emerald-400/10")
                (lit "border-emerald-400/20")
  else if at_least score 70
  then mkStyles (lit "text-amber-400") (lit "bg-amber-400/10")
                (lit "border-amber-400/20")
  else mkStyles (lit "text-red-400") (lit "bg-red-400/10")
                (lit "border-red-400/20").

(** Line 112: the icon beside the score. *)
Inductive icon := CheckCircle | AlertCircle.

Definition score_icon (score : number) : icon :=
  if at_least score 90 then CheckCircle else AlertCircle.

(** [expandedFiles]: an object from file names to booleans. *)
Fixpoint get (key : str) (m : list (str * bool)) : option bool :=
  match m with
  | [] => None
  | (k, v) :: rest => if Json.str_eqb k key then Some v else get key rest
  end.








(** Line 176: [result.fileName.split(".").pop() || "text"]. *)
Definition language (v : ValidationResult.t) : str :=
  or_str (pop (split "." v.(ValidationResult.fileName))) (lit "text").

End ValidationResults.

(** ** The specification's reading of the micro-format *)

(** The score tag, the thinking span and the fenced block described
    directly on the text, without a pattern matcher.  The theorems below
    compare the code with these. *)

Module Spec.
Import JS.

(** A run of white space, and a text without any. *)
Definition blank (ws : str) : Prop := forallb is_space ws = true.
Definition solid (n : str) : Prop :=
  forallb (fun c => negb (is_space c)) n = true.

(** The text after [p], when the text starts with [p]. *)
Fixpoint strip_prefix (p s : str) : option str :=
  match p, s with
  | [], _ => Some s
  | a :: p', b :: s' => if Ascii.eqb a b then strip_prefix p' s' else None
  | _ :: _, [] => None
  end.

(** The text before and the text after the first occurrence of
    [needle]. *)
Fixpoint cut (needle s : str) : option (str * str) :=
  match strip_prefix needle s with
  | Some rest => Some ([], rest)
  | None =>
      match s with
      | [] => None
      | c :: s' =>
          match cut needle s' with
          | Some (a, b) => Some (c :: a, b)
          | None => None
          end
      end
  end.

(** The longest prefix whose characters satisfy [p], and the rest. *)
Fixpoint span (p : ascii -> bool) (s : str) : str * str :=
  match s with
  | c :: s' =>
      if p c then let '(a, b) := span p s' in (c :: a, b) else ([], s)
  | [] => ([], [])
  end.

(** The number a run of decimal digits denotes. *)
Definition decimal (ds : str) : Z :=
  fold_left (fun acc c => (10 * acc + (Z.of_N (char_code c) - 48))%Z) ds 0%Z.

(** A number brought to the nearest bound of [0, 100]. *)
Definition clamp (z : Z) : Z := Z.min (Z.max z 0) 100.

Definition all_digits (ds : str) : Prop :=
  ds <> [] /\ forallb is_digit ds = true.

(** [t] is a score tag with digits [ds]. *)
Definition score_tag (ds t : str) : Prop :=
  all_digits ds /\ t = lit "<SCORE:" ++ ds ++ lit ">".

(** A score tag occurs in [s] after [pre]. *)
Definition score_tag_after (pre ds s : str) : Prop :=
  exists t post, score_tag ds t /\ s = pre ++ t ++ post.

(** The first score tag of [s] comes after [pre] and has digits [ds]. *)
Definition first_score_tag (pre ds s : str) : Prop :=
  score_tag_after pre ds s /\
  forall pre' ds', score_tag_after pre' ds' s ->
                   List.length pre <= List.length pre'.

Definition no_score_tag (s : str) : Prop :=
  forall pre ds, ~ score_tag_after pre ds s.

(** A score tag at the start of the text: its digits and the text after
    it. *)
Definition score_tag_here (s : str) : option (str * str) :=
  match strip_prefix (lit "<SCORE:") s with
  | Some t =>
      match span is_digit t with
      | (d :: ds, c :: post) =>
          if Ascii.eqb c ">" then Some (d :: ds, post) else None
      | _ => None
      end
  | None => None
  end.

(** A thinking span at the start of the text: the text after its
    closing marker. *)
Definition think_span_here (s : str) : option str :=
  match strip_prefix (lit "<think>") s with
  | Some t =>
      match cut (lit "</think>") t with
      | Some (_, post) => Some post
      | None => None
      end
  | None => None
  end.

Definition score_span_here (s : str) : option str :=
  option_map snd (score_tag_here s).

(** The text without the spans that [here] recognises, scanning from
    the left: where a span starts, the scan jumps to the text after
    it. *)
Fixpoint remove_spans_from (fuel : nat) (here : str -> option str) (s : str)
  : str :=
  match fuel with
  | O => s
  | S fuel' =>
      match s with
      | [] => []
      | c :: s' =>
          match here s with
          | Some rest => remove_spans_from fuel' here rest
          | None => c :: remove_spans_from fuel' here s'
          end
      end
  end.

Definition remove_spans (here : str -> option str) (s : str) : str :=
  remove_spans_from (List.length s) here s.

Definition remove_score_tags : str -> str := remove_spans score_span_here.

Definition remove_think_spans : str -> str :=
  remove_spans think_span_here.

(** The text after an opening fence without its language tag: a run of
    word characters ended by a line break. *)
Definition drop_language_tag (s : str) : str :=
  match span is_word s with
  | (_ :: _, c :: rest) => if Ascii.eqb c newline then rest else s
  | _ => s
  end.

Definition fence : str := lit "```".

(** The first fenced block: the text before its opening fence, its
    interior, and the text after its closing fence. *)
Definition first_fenced_block (s : str) : option (str * str * str) :=
  match cut fence s with
  | Some (pre, opened) =>
      match cut fence (drop_language_tag opened) with
      | Some (interior, post) => Some (pre, interior, post)
      | None => None
      end
  | None => None
  end.

(** A fenced block at the start of the text: its interior and the text
    after its closing fence. *)
Definition fenced_here (u : str) : option (str * str) :=
  match strip_prefix fence u with
  | Some opened => cut fence (drop_language_tag opened)
  | None => None
  end.

Definition remove_first_fenced_block (s : str) : str :=
  match first_fenced_block s with
  | Some (pre, _, post) => pre ++ post
  | None => s
  end.

(** The narrative: the raw text without its first fenced block, then
    without score tags, then without thinking spans, trimmed. *)
Definition narrative (raw : str) : str :=
  trim (remove_think_spans (remove_score_tags (remove_first_fenced_block raw))).

(** The trigger a line carries, in the order of priority. *)
Definition trigger (line : str) : option ValidationResults.section :=
  let l := toLowerCase line in
  if includes l (lit "security") then Some ValidationResults.Security
  else if includes l (lit "vulnerability") then Some ValidationResults.Security
  else if includes l (lit "performance") then Some ValidationResults.Performance
  else if includes l (lit "optimization") then Some ValidationResults.Performance
  else if includes l (lit "suggestion") then Some ValidationResults.Suggestions
  else if includes l (lit "recommendation") then Some ValidationResults.Suggestions
  else None.

(** The section in force at line [i]: that of the last line up to and
    including [i] that carries a trigger, [Analysis] when there is
    none. *)
Definition triggers (lines : list str) : list ValidationResults.section :=
  flat_map (fun l => match trigger l with Some k => [k] | None => [] end) lines.

Definition cursor_at (lines : list str) (i : nat) : ValidationResults.section :=
  last (triggers (firstn (S i) lines)) ValidationResults.Analysis.

(** [n] occurs in [s]. *)
Definition occurs (n s : str) : Prop := exists a b, s = a ++ n ++ b.

(** The non-blank lines, trimmed. *)
Definition non_blank_lines (lines : list str) : list str :=
  map trim (filter (fun l => truthy (trim l)) lines).

Definition section_eqb (a b : ValidationResults.section) : bool :=
  match a, b with
  | ValidationResults.Analysis, ValidationResults.Analysis
  | ValidationResults.Suggestions, ValidationResults.Suggestions
  | ValidationResults.Security, ValidationResults.Security
  | ValidationResults.Performance, ValidationResults.Performance => true
  | _, _ => false
  end.

(** The lines listed under [key]: the non-blank lines at which [key] is
    in force, trimmed, in their order. *)
Definition lines_of (key : ValidationResults.section) (lines : list str)
  : list str :=
  map (fun i => trim (nth i lines []))
    (filter (fun i => (truthy (trim (nth i lines [])) &&
                       section_eqb (cursor_at lines i) key)%bool)
       (seq 0 (List.length lines))).


(** The parent holds the files that the uploader lists. *)
Definition in_sync (c : FileUploader.Instance) (st : App.AppState) : Prop :=
  App.files st =
  map App.read_file (map FileUploader.file (FileUploader.uploadedFiles c)).

(** The lines before the first one that carries a trigger. *)
Fixpoint before_first_trigger (lines : list str) : list str :=
  match lines with
  | [] => []
  | l :: rest =>
      match trigger l with
      | None => l :: before_first_trigger rest
      | Some _ => []
      end
  end.

(** The console lines of the files of a batch whose [try] block
    throws; [i] is the index of the first file. *)
Fixpoint error_logs (net : nat -> App.reply) (i : nat)
    (fs : list FileWithContent.t) : list str :=
  match fs with
  | [] => []
  | f :: fs' =>
      match App.try_block f (net i) with
      | inl _ => App.error_log f :: error_logs net (S i) fs'
      | inr _ => error_logs net (S i) fs'
      end
  end.

(** What a suspended call is going to write to the console. *)
Definition pending_log (t : App.task) : list str :=
  match t with
  | App.AwaitFetch file r =>
      match App.try_block file r with
      | inl _ => [App.error_log file]
      | inr _ => []
      end
  | App.AwaitJson file b =>
      match App.try_block file (App.Responded 200 b) with
      | inl _ => [App.error_log file]
      | inr _ => []
      end
  end.

(** The configurations a batch goes through. *)
Definition reachable (net : nat -> App.reply) (st : App.AppState)
    (c : list App.task * App.AppState) : Prop :=
  App.steps
    (App.start_all net 0 (App.files st)
       (App.setValidationResults (fun _ => [])
          (App.setStreamingState (fun _ => App.analyzing) st)))
    c.

End Spec.

(** ** Sample inputs *)

Module Samples.
Import JS App.

Definition file_a : FileWithContent.t :=
  FileWithContent.make (lit "a.js") (lit "src/a.js") (lit "let a;") (lit "js").
Definition file_b : FileWithContent.t :=
  FileWithContent.make (lit "b.py") (lit "src/b.py") (lit "b = 1") (lit "py").
Definition file_c : FileWithContent.t :=
  FileWithContent.make (lit "c.ts") (lit "src/c.ts") (lit "let c = 2;") (lit "ts").

(** A body of the expected shape carrying [text]. *)
Definition completion (text : str) : Json.value :=
  Json.Object
    [(lit "choices",
      Json.Array
        [Json.Object
           [(lit "message",
             Json.Object [(lit "content", Json.String text)])]])].

Definition initial : AppState :=
  mkApp [file_a; file_b; file_c] [] idle [] [] [].

(** The request for the second file is rejected; the two others are
    answered. *)
Definition second_rejects (i : nat) : reply :=
  match i with
  | 1 => FetchRejected (ErrorObject (lit "Failed to fetch"))
  | _ => Responded 200 (JsonParsed (completion (lit "Fine. <SCORE:90>")))
  end.

Definition all_answer (_ : nat) : reply :=
  Responded 200 (JsonParsed (completion (lit "Fine. <SCORE:90>"))).

(** The state reached when the calls finish in the order of the
    files. *)
Definition finished (net : nat -> reply) (st : AppState) : AppState :=
  let '(ts, st1) :=
    start_all net 0 st.(files)
      (setValidationResults (fun _ => [])
         (setStreamingState (fun _ => analyzing) st)) in
  setStreamingState (fun _ => idle) (run_in_order ts st1).

(** Two lines without any pattern. *)
Definition plain_text : str :=
  lit "Looks fine." ++ [newline] ++ lit " No issues.  ".

Definition submitted : submit_reply :=
  SubmitResponded (Json.Object [(lit "token", Json.String (lit "abc"))]).

Definition queued : poll_reply := PollResponded (mkPoll 1 None None).
Definition accepted : poll_reply :=
  PollResponded (mkPoll 3 (Some (lit "OK")) None).

(** Two files picked in the browser. *)
Definition picked : list File.t :=
  [File.make (lit "a.js") [] None 6 (lit "let a;");
   File.make (lit "b.py") (lit "pkg/b.py") None 5 (lit "b = 1")].

(** An uploader that lists the two picked files. *)
Definition listing : FileUploader.Instance :=
  FileUploader.mkInstance FileUploader.FileMode
    (map FileUploader.entry picked) None [].

(** A body of the expected shape whose content is a number. *)
Definition numeric_completion : Json.value :=
  Json.Object
    [(lit "choices",
      Json.Array
        [Json.Object
           [(lit "message",
             Json.Object [(lit "content", Json.Number (Num 7))])]])].

(** A response with a fenced block between two sentences. *)
Definition fenced_text : str :=
  lit "  Use const. ```js" ++ [newline] ++ lit " const a = 1; ``` done  ".

End Samples.

(** * Properties *)

Import JS RegExp.

(** ** Facts about lists and strings *)

Section ListFacts.
Variables A B C : Type.

Lemma flat_map_map (f : B -> list C) (g : A -> B) (l : list A) :
  flat_map f (map g l) = flat_map (fun x => f (g x)) l.
Proof.
  induction l as [|x l IH]; simpl; [reflexivity | now rewrite IH].
Qed.

Lemma hd_error_app (l1 l2 : list A) :
  hd_error (l1 ++ l2) =
  match hd_error l1 with Some x => Some x | None => hd_error l2 end.
Proof. destruct l1; reflexivity. Qed.

Lemma hd_error_map (f : A -> B) (l : list A) :
  hd_error (map f l) = option_map f (hd_error l).
Proof. destruct l; reflexivity. Qed.

End ListFacts.

Module SpecFacts.
Import Spec.

Lemma strip_prefix_app (p t : str) : strip_prefix p (p ++ t) = Some t.
Proof.
  induction p as [|a p IH]; simpl; [reflexivity|].
  now rewrite Ascii.eqb_refl.
Qed.

Lemma strip_prefix_Some (p s t : str) :
  strip_prefix p s = Some t -> s = p ++ t.
Proof.
  revert s; induction p as [|a p IH]; intros s H; simpl in *.
  - now inversion H.
  - destruct s as [|b s]; [discriminate|].
    destruct (Ascii.eqb a b) eqn:E; [|discriminate].
    apply Ascii.eqb_eq in E; subst b. f_equal. now apply IH.
Qed.

Lemma cut_Some (n s a b : str) :
  cut n s = Some (a, b) -> s = a ++ n ++ b.
Proof.
  revert a; induction s as [|c s IH]; intros a H; simpl in H.
  - destruct (strip_prefix n []) eqn:E; [|discriminate].
    inversion H; subst. now apply strip_prefix_Some in E.
  - destruct (strip_prefix n (c :: s)) eqn:E.
    + inversion H; subst. now apply strip_prefix_Some in E.
    + destruct (cut n s) as [[a' b']|] eqn:E'; [|discriminate].
      inversion H; subst. simpl. f_equal. now apply IH.
Qed.

(** No occurrence starts before the one [cut] finds. *)
Lemma cut_first (n s a b a' b' : str) :
  cut n s = Some (a, b) -> s = a' ++ n ++ b' ->
  List.length a <= List.length a'.
Proof.
  revert a a'; induction s as [|c s IH]; intros a a' H E; simpl in H.
  - destruct (strip_prefix n []); [|discriminate].
    inversion H; subst; simpl; lia.
  - destruct (strip_prefix n (c :: s)) eqn:P.
    + inversion H; subst; simpl; lia.
    + destruct (cut n s) as [[x y]|] eqn:E'; [|discriminate].
      inversion H; subst.
      destruct a' as [|c' a'].
      * simpl in E. rewrite E, strip_prefix_app in P. discriminate.
      * simpl in E. inversion E; subst.
        simpl. apply le_n_S. now apply IH.
Qed.

Lemma cut_None (n s a b : str) : cut n s = None -> s <> a ++ n ++ b.
Proof.
  revert a; induction s as [|c s IH]; intros a H E; simpl in H.
  - destruct (strip_prefix n []) eqn:P; [discriminate|].
    destruct a; simpl in E.
    + rewrite E, strip_prefix_app in P. discriminate.
    + discriminate.
  - destruct (strip_prefix n (c :: s)) eqn:P; [discriminate|].
    destruct (cut n s) as [[x y]|] eqn:E'; [discriminate|].
    destruct a as [|c' a]; simpl in E.
    + rewrite E, strip_prefix_app in P. discriminate.
    + inversion E; subst. now apply (IH a).
Qed.

Lemma cut_app (n a b : str) : exists a' b', cut n (a ++ n ++ b) = Some (a', b').
Proof.
  destruct (cut n (a ++ n ++ b)) as [[a' b']|] eqn:E; [eauto|].
  exfalso. now apply (cut_None n _ a b E).
Qed.

Lemma span_app (p : ascii -> bool) (s : str) :
  s = fst (span p s) ++ snd (span p s).
Proof.
  induction s as [|c s IH]; simpl; [reflexivity|].
  destruct (p c); [|reflexivity].
  destruct (span p s); simpl in *. now f_equal.
Qed.

Lemma span_all (p : ascii -> bool) (s : str) :
  forallb p (fst (span p s)) = true.
Proof.
  induction s as [|c s IH]; simpl; [reflexivity|].
  destruct (p c) eqn:E; [|reflexivity].
  destruct (span p s); simpl in *. now rewrite E.
Qed.

Lemma span_run (p : ascii -> bool) (a : str) (c : ascii) (t : str) :
  forallb p a = true -> p c = false -> span p (a ++ c :: t) = (a, c :: t).
Proof.
  intros Ha Hc. induction a as [|x a IH]; simpl in *.
  - now rewrite Hc.
  - apply andb_prop in Ha as [Hx Ha]. rewrite Hx, (IH Ha). reflexivity.
Qed.

End SpecFacts.

(** ** Facts about the matcher *)

Module RegExpFacts.
Import Spec SpecFacts.

Lemma later_None (c : option str) : later None c = c.
Proof. now destruct c. Qed.

Lemma matches_Lit (n s : str) :
  matches (Lit n) s =
  match strip_prefix n s with Some t => [(n, None, t)] | None => [] end.
Proof.
  revert s; induction n as [|a n IH]; intros s; simpl; [reflexivity|].
  destruct s as [|b s]; simpl; [reflexivity|].
  rewrite (Ascii.eqb_sym b a).
  destruct (Ascii.eqb a b) eqn:E; simpl; [|reflexivity].
  apply Ascii.eqb_eq in E; subst b.
  rewrite IH, app_nil_r. now destruct (strip_prefix n s).
Qed.

(** A pattern that opens with a literal. *)
Lemma matches_Cat_Lit (n : str) (r : regex) (s : str) :
  matches (Cat (Lit n) r) s =
  match strip_prefix n s with
  | Some t => map (fun '(b, cb, s2) => (n ++ b, cb, s2)) (matches r t)
  | None => []
  end.
Proof.
  change (matches (Cat (Lit n) r) s) with
    (flat_map
       (fun '(a, ca, s1) =>
          map (fun '(b, cb, s2) => (a ++ b, later ca cb, s2)) (matches r s1))
       (matches (Lit n) s)).
  rewrite matches_Lit. destruct (strip_prefix n s); simpl; [|reflexivity].
  rewrite app_nil_r. apply map_ext. intros [[b cb] s2]. now rewrite later_None.
Qed.

(** A greedy run of [p] followed by something that cannot start with a
    character of [p]: only the whole run can be followed by it. *)
Lemma star_greedy_last (B : Type) (p : ascii -> bool)
      (K : str * str -> list B) (s : str) :
  (forall a x t, p x = true -> K (a, x :: t) = []) ->
  flat_map K (star_greedy p s) = K (span p s).
Proof.
  revert K. induction s as [|x s IH]; intros K HK; simpl.
  - apply app_nil_r.
  - destruct (p x) eqn:Hx; simpl; [|apply app_nil_r].
    rewrite flat_map_app, flat_map_map. simpl.
    rewrite (HK [] x s Hx), app_nil_r.
    transitivity (flat_map (fun y => K (x :: fst y, snd y)) (star_greedy p s)).
    + apply flat_map_ext. now intros [a t].
    + rewrite IH; [now destruct (span p s)|].
      intros a y t Hy. now apply HK.
Qed.

Lemma plus_greedy_last (B : Type) (p : ascii -> bool)
      (K : str * str -> list B) (s : str) :
  (forall a x t, p x = true -> K (a, x :: t) = []) ->
  flat_map K (plus_greedy p s) =
  match span p s with
  | (_ :: _, _) as y => K y
  | _ => []
  end.
Proof.
  intros HK. destruct s as [|x s]; simpl; [reflexivity|].
  destruct (p x) eqn:Hx; simpl; [|reflexivity].
  rewrite flat_map_map.
  transitivity (flat_map (fun y => K (x :: fst y, snd y)) (star_greedy p s)).
  - apply flat_map_ext. now intros [a t].
  - rewrite star_greedy_last; [now destruct (span p s)|].
    intros a y t Hy. now apply HK.
Qed.

(** A lazy run of any characters followed by a literal stops at the
    first occurrence of the literal. *)
Lemma star_lazy_first (B : Type) (n : str) (K : str * str -> list B)
      (h : str * str -> B) (s : str) :
  (forall a t, K (a, t) =
               match strip_prefix n t with
               | Some t' => [h (a, t')]
               | None => []
               end) ->
  hd_error (flat_map K (star_lazy any_char s)) = option_map h (cut n s).
Proof.
  revert K h. induction s as [|x s IH]; intros K h HK.
  - simpl. rewrite HK. now destruct (strip_prefix n []).
  - change (star_lazy any_char (x :: s)) with
      (([], x :: s) :: map (fun '(a, t) => (x :: a, t)) (star_lazy any_char s)).
    cbn [flat_map cut]. rewrite hd_error_app, HK.
    destruct (strip_prefix n (x :: s)); [reflexivity|].
    cbn [hd_error]. rewrite flat_map_map.
    transitivity
      (hd_error (flat_map (fun y => K (x :: fst y, snd y)) (star_lazy any_char s))).
    + f_equal. apply flat_map_ext. now intros [a t].
    + rewrite (IH _ (fun y => h (x :: fst y, snd y))).
      * now destruct (cut n s) as [[a b]|].
      * intros a t. now rewrite HK.
Qed.

(** *** The patterns of the source *)

Import App ValidationResults.

Lemma digit_not_gt (x : ascii) : is_digit x = true -> Ascii.eqb x ">" = false.
Proof.
  intros H. apply Ascii.eqb_neq. intros ->. discriminate.
Qed.

Lemma word_not_newline (x : ascii) :
  is_word x = true -> Ascii.eqb x newline = false.
Proof.
  intros H. apply Ascii.eqb_neq. intros ->. discriminate.
Qed.

(** [/<SCORE:(\d+)>/] at a position. *)
Lemma exec_score_re (s : str) :
  exec_here score_re s =
  option_map
    (fun '(ds, post) => (lit "<SCORE:" ++ ds ++ lit ">", Some ds, post))
    (score_tag_here s).
Proof.
  unfold exec_here, score_re, score_tag_here.
  rewrite matches_Cat_Lit.
  destruct (strip_prefix (lit "<SCORE:") s) as [t|]; [|reflexivity].
  rewrite hd_error_map.
  cbn [matches]. rewrite !flat_map_map.
  rewrite plus_greedy_last.
  - destruct (span is_digit t) as [[|d ds] [|c post]]; try reflexivity.
    cbn. destruct (Ascii.eqb c ">") eqn:E; [|reflexivity].
    apply Ascii.eqb_eq in E; subst c. reflexivity.
  - intros a x t' Hx. cbn. now rewrite (digit_not_gt x Hx).
Qed.

(** [/<SCORE:\d+>/] at a position. *)
Lemma exec_score_tag_re (s : str) :
  exec_here score_tag_re s =
  option_map
    (fun '(ds, post) => (lit "<SCORE:" ++ ds ++ lit ">", None, post))
    (score_tag_here s).
Proof.
  unfold exec_here, score_tag_re, score_tag_here.
  rewrite matches_Cat_Lit.
  destruct (strip_prefix (lit "<SCORE:") s) as [t|]; [|reflexivity].
  rewrite hd_error_map.
  cbn [matches]. rewrite !flat_map_map.
  rewrite plus_greedy_last.
  - destruct (span is_digit t) as [[|d ds] [|c post]]; try reflexivity.
    cbn. destruct (Ascii.eqb c ">") eqn:E; [|reflexivity].
    apply Ascii.eqb_eq in E; subst c. reflexivity.
  - intros a x t' Hx. cbn. now rewrite (digit_not_gt x Hx).
Qed.

(** A lazy run closed by a literal, at a position. *)
Lemma exec_lazy_until (n : str) (t : str) :
  hd_error (matches (Cat (StarLazy any_char) (Lit n)) t) =
  option_map (fun '(a, b) => (a ++ n, None, b)) (cut n t).
Proof.
  cbn [matches]. rewrite flat_map_map.
  apply star_lazy_first. intros a u.
  rewrite matches_Lit. now destruct (strip_prefix n u).
Qed.

Lemma exec_group_lazy_until (n : str) (t : str) :
  hd_error (matches (Cat (Group (StarLazy any_char)) (Lit n)) t) =
  option_map (fun '(a, b) => (a ++ n, Some a, b)) (cut n t).
Proof.
  cbn [matches]. rewrite !flat_map_map.
  apply star_lazy_first. intros a u.
  rewrite matches_Lit. now destruct (strip_prefix n u).
Qed.

(** [/<think>[\s\S]*?<\/think>/] at a position. *)
Lemma exec_think_re (s : str) :
  option_map snd (exec_here think_re s) = think_span_here s.
Proof.
  unfold exec_here, think_re, think_span_here.
  rewrite matches_Cat_Lit.
  destruct (strip_prefix (lit "<think>") s) as [t|]; [|reflexivity].
  rewrite hd_error_map, exec_lazy_until.
  now destruct (cut (lit "</think>") t) as [[a b]|].
Qed.

(** [/```[\s\S]*?```/] at a position. *)
Lemma exec_fence_re (s : str) :
  option_map snd (exec_here fence_re s) =
  match strip_prefix fence s with
  | Some opened => option_map snd (cut fence opened)
  | None => None
  end.
Proof.
  unfold exec_here, fence_re.
  rewrite matches_Cat_Lit. fold fence.
  destruct (strip_prefix fence s) as [t|]; [|reflexivity].
  rewrite hd_error_map, exec_lazy_until.
  now destruct (cut fence t) as [[a b]|].
Qed.

Lemma matches_Cat (r1 r2 : regex) (s : str) :
  matches (Cat r1 r2) s =
  flat_map
    (fun '(a, ca, s1) =>
       map (fun '(b, cb, s2) => (a ++ b, later ca cb, s2)) (matches r2 s1))
    (matches r1 s).
Proof. reflexivity. Qed.

Lemma matches_Opt (r : regex) (s : str) :
  matches (Opt r) s = matches r s ++ [([], None, s)].
Proof. reflexivity. Qed.

(** [\w+\n] at a position: the whole run of word characters, when a
    line break follows it. *)
Lemma matches_language_tag (s : str) :
  matches (Cat (Plus is_word) (Chr newline)) s =
  match span is_word s with
  | (x :: xs, c :: rest) =>
      if Ascii.eqb c newline then [((x :: xs) ++ [newline], None, rest)] else []
  | _ => []
  end.
Proof.
  cbn [matches]. rewrite flat_map_map, plus_greedy_last.
  - destruct (span is_word s) as [[|x xs] [|c rest]]; try reflexivity.
    cbn -[newline]. destruct (Ascii.eqb c newline) eqn:E; [|reflexivity].
    apply Ascii.eqb_eq in E; subst c. reflexivity.
  - intros a x t Hx. cbn -[newline]. now rewrite (word_not_newline x Hx).
Qed.

Lemma cut_cons_miss (n : str) (c : ascii) (s : str) :
  strip_prefix n (c :: s) = None ->
  cut n (c :: s) = option_map (fun '(a, b) => (c :: a, b)) (cut n s).
Proof.
  intros H. cbn [cut]. rewrite H. now destruct (cut n s) as [[a b]|].
Qed.

Lemma cut_cons_hit (n : str) (s t : str) :
  strip_prefix n s = Some t -> cut n s = Some ([], t).
Proof.
  intros H. destruct s; cbn [cut]; now rewrite H.
Qed.

Lemma strip_prefix_fence_miss (c : ascii) (s : str) :
  Ascii.eqb c "`" = false -> strip_prefix fence (c :: s) = None.
Proof.
  intros H. change fence with ("`"%char :: lit "``"). cbn [strip_prefix].
  rewrite (Ascii.eqb_sym "`" c). now rewrite H.
Qed.

(** Characters other than the backtick in front of a text do not change
    where its first fence is. *)
Lemma cut_fence_skip (pre rest : str) :
  forallb (fun c => negb (Ascii.eqb c "`")) pre = true ->
  cut fence (pre ++ rest) =
  option_map (fun '(a, b) => (pre ++ a, b)) (cut fence rest).
Proof.
  intros H. induction pre as [|c pre IH].
  - simpl. now destruct (cut fence rest) as [[a b]|].
  - cbn [forallb] in H. apply andb_prop in H as [Hc H].
    apply negb_true_iff in Hc.
    rewrite <- app_comm_cons, cut_cons_miss
      by now apply strip_prefix_fence_miss.
    rewrite (IH H). now destruct (cut fence rest) as [[a b]|].
Qed.

Lemma word_not_backtick (x : ascii) :
  is_word x = true -> negb (Ascii.eqb x "`") = true.
Proof.
  intros H. apply negb_true_iff, Ascii.eqb_neq. intros ->. discriminate.
Qed.

Lemma cut_fence_drop_language_tag (opened : str) :
  option_map snd (cut fence (drop_language_tag opened)) =
  option_map snd (cut fence opened).
Proof.
  unfold drop_language_tag.
  pose proof (span_app is_word opened) as E.
  pose proof (span_all is_word opened) as W.
  destruct (span is_word opened) as [[|x xs] [|c rest]]; try reflexivity.
  cbn [fst snd] in *.
  destruct (Ascii.eqb c newline) eqn:C; [|reflexivity].
  apply Ascii.eqb_eq in C; subst c.
  rewrite E.
  replace ((x :: xs) ++ newline :: rest)
    with (((x :: xs) ++ [newline]) ++ rest) by now rewrite <- app_assoc.
  rewrite cut_fence_skip.
  - now destruct (cut fence rest) as [[a b]|].
  - rewrite forallb_app. apply andb_true_intro. split; [|reflexivity].
    rewrite forallb_forall in W |- *. intros y Hy.
    apply word_not_backtick. now apply W.
Qed.

(** [/```(?:\w+\n)?([\s\S]*?)```/] at a position: capture group 1 and
    the text after the match. *)
Lemma exec_corrected_code_re (s : str) :
  option_map (fun '(_, cap, rest) => (cap, rest)) (exec_here corrected_code_re s) =
  match strip_prefix fence s with
  | Some opened =>
      option_map (fun '(inner, post) => (Some inner, post))
        (cut fence (drop_language_tag opened))
  | None => None
  end.
Proof.
  unfold exec_here, corrected_code_re. fold fence.
  rewrite matches_Cat_Lit.
  destruct (strip_prefix fence s) as [t|]; [|reflexivity].
  rewrite hd_error_map.
  rewrite matches_Cat, matches_Opt, flat_map_app, hd_error_app.
  rewrite matches_language_tag.
  pose proof (cut_fence_drop_language_tag t) as D.
  unfold drop_language_tag in *.
  destruct (span is_word t) as [[|x xs] [|c rest]].
  - cbn [flat_map app]. rewrite app_nil_r, hd_error_map, exec_group_lazy_until.
    now destruct (cut fence t) as [[a b]|].
  - cbn [flat_map app]. rewrite app_nil_r, hd_error_map, exec_group_lazy_until.
    now destruct (cut fence t) as [[a b]|].
  - cbn [flat_map app]. rewrite app_nil_r, hd_error_map, exec_group_lazy_until.
    now destruct (cut fence t) as [[a b]|].
  - destruct (Ascii.eqb c newline).
    + cbn [flat_map app]. rewrite !app_nil_r, !hd_error_map, !exec_group_lazy_until.
      destruct (cut fence rest) as [[a b]|]; [reflexivity|].
      destruct (cut fence t) as [[a b]|]; [discriminate|reflexivity].
    + cbn [flat_map app]. rewrite app_nil_r, hd_error_map, exec_group_lazy_until.
      now destruct (cut fence t) as [[a b]|].
Qed.

End RegExpFacts.

Module ScanFacts.

Section Scan.
Variables A B : Type.

Lemma scan_ext (here here' : str -> option A) (s : str) :
  (forall u, here u = here' u) -> scan here s = scan here' s.
Proof.
  intros E. induction s as [|c s IH]; simpl; rewrite E; [reflexivity|].
  now rewrite IH.
Qed.

Lemma scan_map (f : A -> B) (here : str -> option A) (s : str) :
  scan (fun u => option_map f (here u)) s =
  option_map (fun '(pre, x) => (pre, f x)) (scan here s).
Proof.
  induction s as [|c s IH]; simpl.
  - now destruct (here []).
  - destruct (here (c :: s)); [reflexivity|]. simpl.
    rewrite IH. now destruct (scan here s) as [[pre x]|].
Qed.

(** What [scan] finds is there, and nothing is found to its left. *)
Lemma scan_Some (here : str -> option A) (s pre : str) (x : A) :
  scan here s = Some (pre, x) ->
  exists u, s = pre ++ u /\ here u = Some x /\
            forall a v, s = a ++ v -> List.length a < List.length pre ->
                        here v = None.
Proof.
  revert pre. induction s as [|c s IH]; intros pre H; simpl in H.
  - destruct (here []) eqn:E; [|discriminate].
    inversion H; subst. exists []. repeat split; auto.
    simpl; intros; lia.
  - destruct (here (c :: s)) eqn:E.
    + inversion H; subst. exists (c :: s). repeat split; auto.
      simpl; intros; lia.
    + destruct (scan here s) as [[pre' x']|] eqn:E'; [|discriminate].
      inversion H; subst.
      destruct (IH pre' eq_refl) as (u & -> & Hu & Hmin).
      exists u. repeat split; auto.
      intros a v Hs Hlen. destruct a as [|c' a]; simpl in *.
      * now subst v.
      * inversion Hs; subst. apply (Hmin a v); [assumption | lia].
Qed.

Lemma scan_None (here : str -> option A) (s a v : str) :
  scan here s = None -> s = a ++ v -> here v = None.
Proof.
  revert a. induction s as [|c s IH]; intros a H E; simpl in H.
  - destruct (here []) eqn:E0; [discriminate|].
    destruct a; [|discriminate]. simpl in E. now subst v.
  - destruct (here (c :: s)) eqn:E0; [discriminate|].
    destruct (scan here s) as [[pre' x']|] eqn:E'; [discriminate|].
    destruct a as [|c' a]; simpl in E.
    + now subst v.
    + inversion E; subst. now apply (IH a).
Qed.

Lemma scan_None_intro (here : str -> option A) (s : str) :
  (forall a v, s = a ++ v -> here v = None) -> scan here s = None.
Proof.
  intros H. destruct (scan here s) as [[pre x]|] eqn:E; [|reflexivity].
  destruct (scan_Some _ _ _ _ E) as (u & Hs & Hu & _).
  rewrite (H pre u Hs) in Hu. discriminate.
Qed.

(** A hit anywhere makes [scan] find something no further right. *)
Lemma scan_hit (here : str -> option A) (a v : str) (x : A) :
  here v = Some x ->
  exists pre y, scan here (a ++ v) = Some (pre, y) /\
                List.length pre <= List.length a.
Proof.
  intros H. destruct (scan here (a ++ v)) as [[pre y]|] eqn:E.
  - exists pre, y. split; [reflexivity|].
    destruct (scan_Some _ _ _ _ E) as (u & Hs & Hu & Hmin).
    destruct (Nat.le_gt_cases (List.length pre) (List.length a)) as [L|L];
      [assumption|].
    rewrite (Hmin a v eq_refl L) in H. discriminate.
  - rewrite (scan_None _ _ a v E eq_refl) in H. discriminate.
Qed.

End Scan.

End ScanFacts.

(** ** The first fenced block *)

Module FenceFacts.
Import Spec SpecFacts RegExpFacts ScanFacts App.

Lemma cut_fence_None_drop (opened : str) :
  cut fence (drop_language_tag opened) = None -> cut fence opened = None.
Proof.
  intros H. pose proof (cut_fence_drop_language_tag opened) as D.
  rewrite H in D. now destruct (cut fence opened).
Qed.

(** When the text after an opening fence has no further fence, no
    block starts anywhere later. *)
Lemma no_block_later (c : ascii) (s opened : str) :
  strip_prefix fence (c :: s) = Some opened ->
  cut fence opened = None ->
  scan fenced_here s = None.
Proof.
  intros P N. apply scan_None_intro. intros a v Hs.
  unfold fenced_here.
  destruct (strip_prefix fence v) as [opened'|] eqn:P'; [|reflexivity].
  destruct (cut fence (drop_language_tag opened')) as [[inner post]|] eqn:C;
    [exfalso|reflexivity].
  pose proof (cut_fence_drop_language_tag opened') as D.
  rewrite C in D.
  destruct (cut fence opened') as [[x post']|] eqn:C'; [|discriminate].
  apply cut_Some in C'. apply strip_prefix_Some in P, P'.
  subst v opened'.
  assert (c :: s = "`"%char :: "`"%char :: "`"%char :: opened) as P1 by exact P.
  inversion P1 as [[Hc Hs']]. clear P P1. rewrite Hs in Hs'. clear Hc Hs.
  (* the later block's opening fence ends inside [opened] *)
  destruct a as [|c1 [|c2 a]]; unfold fence in Hs'; cbn in Hs'.
  - assert (opened = "`"%char :: x ++ fence ++ post') as E
        by (inversion Hs'; reflexivity).
    now apply (cut_None fence _ ("`"%char :: x) post' N).
  - assert (opened = ("`"%char :: "`"%char :: x) ++ fence ++ post') as E
        by (inversion Hs'; reflexivity).
    now apply (cut_None fence _ ("`"%char :: "`"%char :: x) post' N).
  - assert (opened = (a ++ fence ++ x) ++ fence ++ post') as E.
    { inversion Hs'. rewrite <- !app_assoc. reflexivity. }
    now apply (cut_None fence _ (a ++ fence ++ x) post' N).
Qed.

Lemma scan_fenced_here (s : str) :
  scan fenced_here s =
  option_map (fun '(pre, inner, post) => (pre, (inner, post)))
    (first_fenced_block s).
Proof.
  induction s as [|c s IH].
  - reflexivity.
  - unfold first_fenced_block. cbn [scan]. unfold fenced_here at 1.
    destruct (strip_prefix fence (c :: s)) as [opened|] eqn:P.
    + rewrite (cut_cons_hit _ _ _ P).
      destruct (cut fence (drop_language_tag opened)) as [[inner post]|] eqn:C;
        [reflexivity|].
      now rewrite (no_block_later _ _ _ P (cut_fence_None_drop _ C)).
    + rewrite (cut_cons_miss _ _ _ P), IH. unfold first_fenced_block.
      destruct (cut fence s) as [[pre opened]|]; [|reflexivity].
      cbn [option_map].
      now destruct (cut fence (drop_language_tag opened)) as [[inner post]|].
Qed.

(** The match of [/```(?:\w+\n)?([\s\S]*?)```/] is the first fenced
    block: capture group 1 is its interior. *)
Lemma str_match_corrected_code (s : str) :
  option_map snd (str_match corrected_code_re s) =
  option_map (fun '(_, inner, _) => Some inner) (first_fenced_block s).
Proof.
  unfold str_match, search.
  transitivity
    (option_map (fun y : str * (option str * str) => fst (snd y))
       (scan (fun u => option_map (fun '(_, cap, rest) => (cap, rest))
                         (exec_here corrected_code_re u)) s)).
  - rewrite scan_map.
    destruct (scan (exec_here corrected_code_re) s) as [[pre [[w cap] rest]]|];
      reflexivity.
  - rewrite (scan_ext _ _
               (fun u => option_map (fun '(inner, post) => (Some inner, post))
                           (fenced_here u))).
    + rewrite scan_map, scan_fenced_here.
      destruct (first_fenced_block s) as [[[pre inner] post]|]; reflexivity.
    + intros u. rewrite exec_corrected_code_re. unfold fenced_here.
      now destruct (strip_prefix fence u).
Qed.

(** Replacing the match of [/```[\s\S]*?```/] by nothing removes the
    first fenced block. *)
Lemma replace_fence_re (s : str) :
  replace fence_re [] s = remove_first_fenced_block s.
Proof.
  unfold replace, remove_first_fenced_block, search.
  assert (option_map (fun y : str * result => (fst y, snd (snd y)))
            (scan (exec_here fence_re) s) =
          option_map (fun '(pre, _, post) => (pre, post)) (first_fenced_block s))
    as E.
  { transitivity (scan (fun u => option_map snd (exec_here fence_re u)) s).
    - rewrite scan_map.
      destruct (scan (exec_here fence_re) s) as [[pre [[w cap] rest]]|];
        reflexivity.
    - rewrite (scan_ext _ _ (fun u => option_map snd (fenced_here u))).
      + rewrite scan_map, scan_fenced_here.
        destruct (first_fenced_block s) as [[[pre inner] post]|]; reflexivity.
      + intros u. rewrite exec_fence_re. unfold fenced_here.
        destruct (strip_prefix fence u); [|reflexivity].
        now rewrite cut_fence_drop_language_tag. }
  destruct (scan (exec_here fence_re) s) as [[pre [[w cap] rest]]|];
    destruct (first_fenced_block s) as [[[pre' inner] post]|];
    simpl in E; try discriminate; [|reflexivity].
  now inversion E.
Qed.

End FenceFacts.

(** ** The score *)

Module ScoreFacts.
Import Spec SpecFacts RegExpFacts ScanFacts App.

Lemma is_digit_bounds (c : ascii) :
  is_digit c = true -> (48 <= char_code c <= 57)%N.
Proof.
  unfold is_digit, between. intros H. apply andb_prop in H as [H1 H2].
  apply N.leb_le in H1, H2. lia.
Qed.

Lemma digit_value_decimal (c : ascii) :
  is_digit c = true ->
  digit_value 10 c = Some (Z.of_N (char_code c) - 48)%Z.
Proof.
  intros H. unfold digit_value. rewrite H.
  apply is_digit_bounds in H.
  assert ((Z.of_N (char_code c) - 48 <? 10)%Z = true) as ->; [|reflexivity].
  apply Z.ltb_lt. lia.
Qed.

Lemma read_digits_decimal (ds : str) (acc : Z) :
  forallb is_digit ds = true ->
  read_digits 10 (Some acc) ds =
  Some (fold_left (fun a c => (10 * a + (Z.of_N (char_code c) - 48))%Z) ds acc).
Proof.
  revert acc. induction ds as [|c ds IH]; intros acc H; simpl in *.
  - reflexivity.
  - apply andb_prop in H as [Hc H].
    rewrite (digit_value_decimal c Hc). now rewrite IH.
Qed.

Lemma digit_not_space (c : ascii) : is_digit c = true -> is_space c = false.
Proof.
  intros H. apply is_digit_bounds in H.
  unfold is_space, between.
  repeat (apply orb_false_intro);
    try (apply andb_false_iff; right; apply N.leb_gt; lia);
    apply N.eqb_neq; lia.
Qed.

Lemma digit_not_char (c x : ascii) :
  is_digit c = true -> is_digit x = false -> Ascii.eqb c x = false.
Proof.
  intros Hc Hx. apply Ascii.eqb_neq. intros ->. congruence.
Qed.

(** [parseInt] of a run of decimal digits is the number it denotes. *)
Lemma parseInt_digits (ds : str) :
  all_digits ds -> parseInt ds = Num (decimal ds).
Proof.
  intros [Hne H]. destruct ds as [|c ds]; [congruence|].
  cbn [forallb] in H. apply andb_prop in H as [Hc H].
  unfold parseInt. cbn [trimStart]. rewrite (digit_not_space c Hc).
  rewrite (digit_not_char c "-" Hc eq_refl), (digit_not_char c "+" Hc eq_refl).
  assert (match ds with
          | x :: t =>
              if (Ascii.eqb c "0" && (Ascii.eqb x "x" || Ascii.eqb x "X"))%bool
              then (16%Z, t) else (10%Z, c :: ds)
          | [] => (10%Z, c :: ds)
          end = (10%Z, c :: ds)) as ->.
  { destruct ds as [|x t]; [reflexivity|].
    cbn [forallb] in H. apply andb_prop in H as [Hx _].
    rewrite (digit_not_char x "x" Hx eq_refl), (digit_not_char x "X" Hx eq_refl).
    now rewrite andb_false_r. }
  cbn [read_digits]. rewrite (digit_value_decimal c Hc).
  rewrite read_digits_decimal by assumption.
  unfold decimal. cbn [fold_left]. f_equal. lia.
Qed.

(** What [score_tag_here] finds is a score tag. *)
Lemma score_tag_here_Some (s ds post : str) :
  score_tag_here s = Some (ds, post) ->
  all_digits ds /\ s = (lit "<SCORE:" ++ ds ++ lit ">") ++ post.
Proof.
  unfold score_tag_here. intros H.
  destruct (strip_prefix (lit "<SCORE:") s) as [t|] eqn:P; [|discriminate].
  apply strip_prefix_Some in P.
  pose proof (span_app is_digit t) as E.
  pose proof (span_all is_digit t) as D.
  destruct (span is_digit t) as [[|d ds'] [|c post']]; try discriminate.
  destruct (Ascii.eqb c ">") eqn:C; [|discriminate].
  apply Ascii.eqb_eq in C. subst c. injection H as <- <-.
  cbn [fst snd] in *.
  split; [split; [discriminate | assumption]|].
  rewrite P, E, <- !app_assoc. reflexivity.
Qed.

(** A score tag at the start of the text is found. *)
Lemma score_tag_here_tag (ds post : str) :
  all_digits ds ->
  score_tag_here ((lit "<SCORE:" ++ ds ++ lit ">") ++ post) = Some (ds, post).
Proof.
  intros [Hne H]. unfold score_tag_here.
  rewrite <- app_assoc, strip_prefix_app.
  rewrite <- app_assoc.
  change (lit ">" ++ post) with (">"%char :: post).
  rewrite (span_run is_digit ds ">" post H eq_refl).
  destruct ds; [congruence|reflexivity].
Qed.

Lemma app_inv_length (a b c d : str) :
  a ++ b = c ++ d -> List.length a = List.length c -> a = c /\ b = d.
Proof.
  revert c. induction a as [|x a IH]; intros [|y c] E L; simpl in *;
    try discriminate; [auto|].
  inversion E; subst. destruct (IH c); auto. now subst.
Qed.

(** The leftmost match of [/<SCORE:(\d+)>/] is the first score tag. *)
Lemma scan_first_score_tag (pre ds s : str) :
  first_score_tag pre ds s ->
  exists post, scan score_tag_here s = Some (pre, (ds, post)).
Proof.
  intros [(t & post & [Hds ->] & ->) Hmin].
  destruct (scan_hit _ score_tag_here pre _ _ (score_tag_here_tag ds post Hds))
    as (pre' & [ds' post'] & Hscan & Hle).
  destruct (scan_Some _ _ _ _ _ Hscan) as (u & Hs & Hu & _).
  destruct (score_tag_here_Some _ _ _ Hu) as [Hds' ->].
  assert (List.length pre <= List.length pre') as Hge.
  { apply (Hmin pre' ds'). exists (lit "<SCORE:" ++ ds' ++ lit ">"), post'.
    split; [split; [assumption | reflexivity] | assumption]. }
  destruct (app_inv_length _ _ _ _ Hs) as [-> E]; [lia|].
  exists post'.
  rewrite <- E, score_tag_here_tag in Hu by assumption.
  injection Hu as -> ->. assumption.
Qed.

Lemma scan_no_score_tag (s : str) :
  no_score_tag s -> scan score_tag_here s = None.
Proof.
  intros H. apply scan_None_intro. intros a v ->.
  destruct (score_tag_here v) as [[ds post]|] eqn:E; [exfalso|reflexivity].
  destruct (score_tag_here_Some _ _ _ E) as [Hds ->].
  apply (H a ds). exists (lit "<SCORE:" ++ ds ++ lit ">"), post.
  split; [split; [assumption | reflexivity] | reflexivity].
Qed.

Lemma no_score_tag_intro (s : str) :
  scan score_tag_here s = None -> no_score_tag s.
Proof.
  intros H pre ds (t & post & [Hds ->] & ->).
  pose proof (scan_None _ _ _ pre _ H eq_refl) as E.
  rewrite score_tag_here_tag in E by assumption. discriminate.
Qed.

(** Capture group 1 of the match of the score pattern. *)
Lemma str_match_score_re (s : str) :
  option_map snd (str_match score_re s) =
  option_map (fun '(_, (ds, _)) => Some ds) (scan score_tag_here s).
Proof.
  unfold str_match, search.
  rewrite (scan_ext _ _
             (fun u => option_map
                         (fun '(ds, post) =>
                            (lit "<SCORE:" ++ ds ++ lit ">", Some ds, post))
                         (score_tag_here u)))
    by (intros u; apply exec_score_re).
  rewrite scan_map.
  destruct (scan score_tag_here s) as [[pre [ds post]]|]; reflexivity.
Qed.

(** The score is the clamped number of the first tag, 0 without a tag. *)
Lemma extract_score_scan (s : str) :
  extract_score s =
  match scan score_tag_here s with
  | Some (_, (ds, _)) => Num (clamp (decimal ds))
  | None => Num 0
  end.
Proof.
  unfold extract_score. pose proof (str_match_score_re s) as M.
  destruct (scan score_tag_here s) as [[pre [ds post]]|] eqn:E.
  - destruct (str_match score_re s) as [[w cap]|]; [|discriminate].
    simpl in M. inversion M; subst cap.
    destruct (scan_Some _ _ _ _ _ E) as (u & _ & Hu & _).
    destruct (score_tag_here_Some _ _ _ Hu) as [Hds _].
    assert (truthy ds = true) as -> by (destruct Hds as [Hne _]; now destruct ds).
    now rewrite (parseInt_digits ds Hds).
  - destruct (str_match score_re s) as [[w cap]|]; [discriminate|].
    reflexivity.
Qed.

End ScoreFacts.

(** ** The corrected code *)

Module CorrectedCodeFacts.
Import Spec SpecFacts RegExpFacts ScanFacts FenceFacts App.

Lemma extract_correctedCode_block (raw : str) :
  extract_correctedCode raw =
  inr (match first_fenced_block raw with
       | Some (_, inner, _) => Some (trim inner)
       | None => None
       end).
Proof.
  unfold extract_correctedCode.
  pose proof (str_match_corrected_code raw) as M.
  destruct (str_match corrected_code_re raw) as [[w cap]|];
    destruct (first_fenced_block raw) as [[[pre inner] post]|];
    try discriminate; [|reflexivity].
  simpl in M. injection M as ->. reflexivity.
Qed.

Lemma build_result_block (file : FileWithContent.t) (raw : str) :
  build_result file raw =
  inr (ValidationResult.make
         (FileWithContent.name file) (FileWithContent.path file)
         (FileWithContent.content file)
         (trim (remove_first_fenced_block raw))
         (extract_score raw)
         (match first_fenced_block raw with
          | Some (_, inner, _) => Some (trim inner)
          | None => None
          end)
         (match first_fenced_block raw with
          | Some (_, inner, _) => truthy (trim inner)
          | None => false
          end)).
Proof.
  unfold build_result.
  rewrite extract_correctedCode_block, replace_fence_re.
  now destruct (first_fenced_block raw) as [[[pre inner] post]|].
Qed.

(** *** The text after the first block does not matter *)

Lemma strip_prefix_long (n x y : str) :
  List.length n <= List.length x ->
  strip_prefix n (x ++ y) = option_map (fun t => t ++ y) (strip_prefix n x).
Proof.
  revert x. induction n as [|a n IH]; intros x L; simpl in *; [reflexivity|].
  destruct x as [|b x]; simpl in *; [lia|].
  destruct (Ascii.eqb a b); [|reflexivity]. apply IH. lia.
Qed.

Lemma cut_change_suffix (n s a b b' : str) :
  cut n s = Some (a, b) -> cut n (a ++ n ++ b') = Some (a, b').
Proof.
  revert a. induction s as [|c s IH]; intros a H.
  - cbn [cut] in H. destruct (strip_prefix n []) eqn:P; [|discriminate].
    injection H as <- <-. simpl. apply cut_cons_hit, strip_prefix_app.
  - cbn [cut] in H. destruct (strip_prefix n (c :: s)) eqn:P.
    + injection H as <- <-. simpl. apply cut_cons_hit, strip_prefix_app.
    + destruct (cut n s) as [[a0 b0]|] eqn:C; [|discriminate].
      injection H as <- <-.
      rewrite <- app_comm_cons, cut_cons_miss.
      * now rewrite (IH a0 eq_refl).
      * apply cut_Some in C. subst s.
        rewrite app_comm_cons, app_assoc in P |- *.
        rewrite strip_prefix_long in P |- *
          by (rewrite length_app; lia).
        now destruct (strip_prefix n ((c :: a0) ++ n)).
Qed.

Lemma span_app_stop (p : ascii -> bool) (x : str) (c : ascii) (y : str) :
  p c = false ->
  span p (x ++ c :: y) = (fst (span p x), snd (span p x) ++ c :: y).
Proof.
  intros Hc. induction x as [|d x IH]; simpl.
  - now rewrite Hc.
  - destruct (p d); [|reflexivity]. rewrite IH. now destruct (span p x).
Qed.

Lemma drop_language_tag_change_suffix (opened inner post post' : str) :
  cut fence (drop_language_tag opened) = Some (inner, post) ->
  exists tag,
    opened = tag ++ inner ++ fence ++ post /\
    drop_language_tag (tag ++ inner ++ fence ++ post') = inner ++ fence ++ post'.
Proof.
  intros H. pose proof (cut_Some _ _ _ _ H) as E.
  unfold drop_language_tag in *.
  pose proof (span_app is_word opened) as A.
  pose proof (span_all is_word opened) as W.
  destruct (span is_word opened) as [w r] eqn:S. cbn [fst snd] in *.
  assert (match w, r with
          | _ :: _, c :: _ => Ascii.eqb c newline
          | _, _ => false
          end = false ->
          opened = inner ++ fence ++ post ->
          exists tag,
            opened = tag ++ inner ++ fence ++ post /\
            match span is_word (tag ++ inner ++ fence ++ post') with
            | (_ :: _, c :: rest) =>
                if Ascii.eqb c newline then rest
                else tag ++ inner ++ fence ++ post'
            | _ => tag ++ inner ++ fence ++ post'
            end = inner ++ fence ++ post') as Plain.
  { intros NT ->. exists []. split; [reflexivity|]. cbn [app].
    change (inner ++ fence ++ post)
      with (inner ++ "`"%char :: lit "``" ++ post) in S.
    change (inner ++ fence ++ post')
      with (inner ++ "`"%char :: lit "``" ++ post').
    rewrite (span_app_stop is_word inner "`" (lit "``" ++ post) eq_refl) in S.
    rewrite (span_app_stop is_word inner "`" (lit "``" ++ post') eq_refl).
    injection S as <- <-.
    destruct (fst (span is_word inner)) as [|x xs]; [reflexivity|].
    destruct (snd (span is_word inner)) as [|c rest]; [reflexivity|].
    cbn [app] in *. now rewrite NT. }
  destruct w as [|x xs]; [now apply Plain|].
  destruct r as [|c rest]; [now apply Plain|].
  destruct (Ascii.eqb c newline) eqn:C; [|now apply Plain].
  apply Ascii.eqb_eq in C. subst c.
  exists ((x :: xs) ++ [newline]). rewrite <- E. split.
  - rewrite A, <- app_assoc. reflexivity.
  - replace (((x :: xs) ++ [newline]) ++ inner ++ fence ++ post')
      with ((x :: xs) ++ newline :: inner ++ fence ++ post')
      by (now rewrite <- app_assoc).
    rewrite (span_run is_word (x :: xs) newline _ W eq_refl).
    now rewrite Ascii.eqb_refl.
Qed.

(** The first fenced block is decided by the text up to its closing
    fence. *)
Lemma first_fenced_block_change_suffix (raw pre inner post : str) :
  first_fenced_block raw = Some (pre, inner, post) ->
  exists block,
    raw = pre ++ block ++ post /\
    forall post',
      first_fenced_block (pre ++ block ++ post') = Some (pre, inner, post').
Proof.
  unfold first_fenced_block. intros H.
  destruct (cut fence raw) as [[pre0 opened]|] eqn:C; [|discriminate].
  destruct (cut fence (drop_language_tag opened)) as [[inner0 post0]|] eqn:D;
    [|discriminate].
  injection H as -> -> ->.
  pose proof (cut_Some _ _ _ _ C) as E.
  destruct (drop_language_tag_change_suffix opened inner post [] D)
    as (tag & Ho & _).
  exists (fence ++ tag ++ inner ++ fence). split.
  - rewrite E, Ho, <- !app_assoc. reflexivity.
  - intros post'.
    destruct (drop_language_tag_change_suffix opened inner post post' D)
      as (tag' & Ho' & Hd).
    assert (tag' = tag) as ->.
    { rewrite Ho in Ho'.
      apply (f_equal (@rev ascii)) in Ho'. rewrite !rev_app_distr in Ho'.
      rewrite <- !app_assoc in Ho'.
      repeat apply app_inv_head in Ho'.
      apply (f_equal (@rev ascii)) in Ho'. now rewrite !rev_involutive in Ho'. }
    replace (pre ++ (fence ++ tag ++ inner ++ fence) ++ post')
      with (pre ++ fence ++ (tag ++ inner ++ fence ++ post'))
      by (now rewrite <- !app_assoc).
    rewrite (cut_change_suffix _ _ _ _ (tag ++ inner ++ fence ++ post') C).
    rewrite Hd.
    now rewrite (cut_change_suffix _ _ _ _ post' D).
Qed.

End CorrectedCodeFacts.

(** ** Removing every span, and white space *)

Module RemoveFacts.
Import Spec SpecFacts RegExpFacts.

Section Spans.
Variable here : str -> option str.
Hypothesis here_shorter :
  forall u rest, here u = Some rest -> List.length rest < List.length u.

Lemma remove_spans_from_nil (fuel : nat) : remove_spans_from fuel here [] = [].
Proof. now destruct fuel. Qed.

Lemma remove_spans_fuel (f f' : nat) (s : str) :
  List.length s <= f -> List.length s <= f' ->
  remove_spans_from f here s = remove_spans_from f' here s.
Proof.
  revert f' s. induction f as [|f IH]; intros f' s L L'.
  - destruct s; [|simpl in L; lia]. now rewrite !remove_spans_from_nil.
  - destruct s as [|c s]; [now rewrite !remove_spans_from_nil|].
    destruct f' as [|f']; [simpl in L'; lia|].
    cbn [remove_spans_from]. simpl in L, L'.
    destruct (here (c :: s)) as [rest|] eqn:E.
    + apply here_shorter in E. simpl in E. apply IH; lia.
    + f_equal. apply IH; lia.
Qed.

Lemma remove_spans_nil : remove_spans here [] = [].
Proof. reflexivity. Qed.

Lemma remove_spans_cons (c : ascii) (s : str) :
  remove_spans here (c :: s) =
  match here (c :: s) with
  | Some rest => remove_spans here rest
  | None => c :: remove_spans here s
  end.
Proof.
  unfold remove_spans. cbn [List.length remove_spans_from].
  destruct (here (c :: s)) as [rest|] eqn:E; [|reflexivity].
  apply here_shorter in E. simpl in E. apply remove_spans_fuel; lia.
Qed.

(** Leading characters at which no span starts are kept. *)
Lemma remove_spans_leading (ws s : str) :
  (forall c u, In c ws -> here (c :: u) = None) ->
  remove_spans here (ws ++ s) = ws ++ remove_spans here s.
Proof.
  intros H. induction ws as [|c ws IH]; [reflexivity|].
  cbn [app]. rewrite remove_spans_cons, (H c) by now left.
  f_equal. apply IH. intros d u Hd. apply H. now right.
Qed.

(** Trailing characters that no span can contain are kept. *)
Lemma remove_spans_trailing (ws s : str) :
  (forall c u, In c ws -> here (c :: u) = None) ->
  (forall c u, here ((c :: u) ++ ws) =
               option_map (fun rest => rest ++ ws) (here (c :: u))) ->
  remove_spans here (s ++ ws) = remove_spans here s ++ ws.
Proof.
  intros Hlead Hstable.
  assert (forall n s, List.length s <= n ->
            remove_spans here (s ++ ws) = remove_spans here s ++ ws) as G.
  { induction n as [|n IH]; intros u L.
    - destruct u; [|simpl in L; lia].
      cbn [app]. rewrite <- (app_nil_r ws) at 1.
      now rewrite remove_spans_leading, remove_spans_nil, app_nil_r.
    - destruct u as [|c u].
      + cbn [app]. rewrite <- (app_nil_r ws) at 1.
        now rewrite remove_spans_leading, remove_spans_nil, app_nil_r.
      + change ((c :: u) ++ ws) with (c :: (u ++ ws)).
        rewrite !remove_spans_cons.
        change (c :: (u ++ ws)) with ((c :: u) ++ ws).
        rewrite Hstable.
        destruct (here (c :: u)) as [rest|] eqn:E; cbn [option_map].
        * apply here_shorter in E. simpl in E, L. apply IH. lia.
        * cbn [app]. f_equal. apply IH. simpl in L. lia. }
  now apply (G (List.length s)).
Qed.

End Spans.

(** The global replacement by nothing removes every span. *)
Lemma replace_g_remove_spans (r : regex) (here : str -> option str) :
  (forall u, option_map snd (exec_here r u) = here u) ->
  (forall u w cap rest, exec_here r u = Some (w, cap, rest) -> w <> []) ->
  exec_here r [] = None ->
  (forall u rest, here u = Some rest -> List.length rest < List.length u) ->
  forall s, replace_g r [] s = remove_spans here s.
Proof.
  intros Hhere Hne Hnil Hshort.
  assert (forall f s, replace_g_from f r [] s = remove_spans_from f here s) as G.
  { induction f as [|f IH]; intros s; [reflexivity|].
    cbn [replace_g_from remove_spans_from app].
    destruct s as [|c s]; [now rewrite Hnil|].
    rewrite <- Hhere.
    destruct (exec_here r (c :: s)) as [[[w cap] rest]|] eqn:E; cbn [option_map snd].
    - destruct w as [|x w]; [now apply Hne in E|]. apply IH.
    - f_equal. apply IH. }
  intros s. unfold replace_g, remove_spans. rewrite G.
  apply remove_spans_fuel; auto.
Qed.

End RemoveFacts.

Module TrimFacts.
Import Spec.

Lemma blank_app (a b : str) : blank a -> blank b -> blank (a ++ b).
Proof. unfold blank. intros Ha Hb. now rewrite forallb_app, Ha, Hb. Qed.

Lemma blank_rev (a : str) : blank a -> blank (rev a).
Proof.
  unfold blank. rewrite !forallb_forall. intros H x Hx.
  apply H. now apply in_rev.
Qed.

Lemma trimStart_blank (ws s : str) :
  blank ws -> trimStart (ws ++ s) = trimStart s.
Proof.
  unfold blank. induction ws as [|c ws IH]; intros H; simpl in *; [reflexivity|].
  apply andb_prop in H as [Hc H]. rewrite Hc. now apply IH.
Qed.

Lemma trimStart_split (s : str) :
  exists ws, blank ws /\ s = ws ++ trimStart s.
Proof.
  induction s as [|c s (ws & B & E)]; simpl.
  - now exists [].
  - destruct (is_space c) eqn:C.
    + exists (c :: ws). split; [unfold blank; simpl; now rewrite C|].
      simpl. now f_equal.
    + now exists [].
Qed.

Lemma trimEnd_blank (s ws : str) : blank ws -> trimEnd (s ++ ws) = trimEnd s.
Proof.
  intros H. unfold trimEnd. rewrite rev_app_distr.
  now rewrite trimStart_blank by now apply blank_rev.
Qed.

Lemma trimEnd_split (s : str) : exists ws, blank ws /\ s = trimEnd s ++ ws.
Proof.
  unfold trimEnd. destruct (trimStart_split (rev s)) as (ws & B & E).
  exists (rev ws). split; [now apply blank_rev|].
  rewrite <- rev_app_distr, <- E. now rewrite rev_involutive.
Qed.

Lemma trimStart_nil_blank (s : str) : trimStart s = [] -> blank s.
Proof.
  destruct (trimStart_split s) as (ws & B & E). intros H.
  rewrite H, app_nil_r in E. now subst.
Qed.

Lemma trimStart_app_keep (s t : str) :
  trimStart s <> [] -> trimStart (s ++ t) = trimStart s ++ t.
Proof.
  induction s as [|c s IH]; simpl; [congruence|].
  destruct (is_space c); [assumption | reflexivity].
Qed.

Lemma trim_blank_around (ws1 s ws2 : str) :
  blank ws1 -> blank ws2 -> trim (ws1 ++ s ++ ws2) = trim s.
Proof.
  intros B1 B2. unfold trim. rewrite trimStart_blank by assumption.
  destruct (trimStart s) as [|c t] eqn:E.
  - rewrite <- (app_nil_r (s ++ ws2)), trimStart_blank; [reflexivity|].
    apply blank_app; [now apply trimStart_nil_blank | assumption].
  - rewrite trimStart_app_keep by (rewrite E; discriminate).
    rewrite E. now apply trimEnd_blank.
Qed.

(** A text is its trimmed form between two blank runs. *)
Lemma trim_split (s : str) :
  exists ws1 ws2, blank ws1 /\ blank ws2 /\ s = ws1 ++ trim s ++ ws2.
Proof.
  destruct (trimStart_split s) as (ws1 & B1 & E1).
  destruct (trimEnd_split (trimStart s)) as (ws2 & B2 & E2).
  exists ws1, ws2. repeat split; try assumption.
  unfold trim. now rewrite <- E2.
Qed.

End TrimFacts.

(** ** The narrative *)

Module NarrativeFacts.
Import Spec SpecFacts RegExpFacts ScanFacts FenceFacts ScoreFacts.
Import RemoveFacts TrimFacts App ValidationResults.

(** A literal without white space is not completed by white space. *)
Lemma strip_prefix_blank (n u ws : str) :
  solid n -> blank ws ->
  n <> [] \/ u <> [] ->
  strip_prefix n (u ++ ws) = option_map (fun t => t ++ ws) (strip_prefix n u).
Proof.
  unfold solid, blank. revert u.
  induction n as [|a n IH]; intros u Hn Hws Hne.
  - reflexivity.
  - cbn [forallb] in Hn. apply andb_prop in Hn as [Ha Hn].
    destruct u as [|b u].
    + cbn [app strip_prefix]. destruct ws as [|w ws]; [reflexivity|].
      cbn [forallb] in Hws. apply andb_prop in Hws as [Hw _].
      assert (Ascii.eqb a w = false) as ->; [|reflexivity].
      apply Ascii.eqb_neq. intros ->. rewrite Hw in Ha. discriminate.
    + cbn [app strip_prefix]. destruct (Ascii.eqb a b); [|reflexivity].
      destruct n as [|a' n].
      * reflexivity.
      * apply IH; auto. left. discriminate.
Qed.

Lemma strip_prefix_space (n : str) (c : ascii) (u : str) :
  solid n -> n <> [] -> is_space c = true -> strip_prefix n (c :: u) = None.
Proof.
  unfold solid. intros Hn Hne Hc. destruct n as [|a n]; [congruence|].
  cbn [forallb] in Hn. apply andb_prop in Hn as [Ha _].
  cbn [strip_prefix].
  assert (Ascii.eqb a c = false) as ->; [|reflexivity].
  apply Ascii.eqb_neq. intros ->. rewrite Hc in Ha. discriminate.
Qed.

Lemma cut_blank_None (n ws : str) :
  solid n -> n <> [] -> blank ws -> cut n ws = None.
Proof.
  intros Hn Hne. unfold blank. induction ws as [|w ws IH]; intros H.
  - cbn [cut]. destruct n; [congruence | reflexivity].
  - cbn [forallb] in H. apply andb_prop in H as [Hw H].
    rewrite cut_cons_miss by now apply strip_prefix_space.
    now rewrite IH.
Qed.

Lemma cut_blank (n u ws : str) :
  solid n -> n <> [] -> blank ws ->
  cut n (u ++ ws) = option_map (fun '(a, b) => (a, b ++ ws)) (cut n u).
Proof.
  intros Hn Hne Hws. induction u as [|c u IH].
  - cbn [app]. rewrite cut_blank_None by assumption.
    cbn [cut]. destruct n; [congruence | reflexivity].
  - change ((c :: u) ++ ws) with (c :: (u ++ ws)).
    cbn [cut].
    change (c :: (u ++ ws)) with ((c :: u) ++ ws).
    rewrite strip_prefix_blank by (auto; right; discriminate).
    destruct (strip_prefix n (c :: u)); [reflexivity|].
    cbn [option_map]. rewrite IH. now destruct (cut n u) as [[a b]|].
Qed.

Lemma span_blank (p : ascii -> bool) (u ws : str) :
  (forall c, In c ws -> p c = false) ->
  span p (u ++ ws) = (fst (span p u), snd (span p u) ++ ws).
Proof.
  intros H. induction u as [|c u IH]; simpl.
  - destruct ws as [|w ws]; [reflexivity|]. simpl.
    now rewrite (H w) by now left.
  - destruct (p c); [|reflexivity]. rewrite IH. now destruct (span p u).
Qed.

Lemma space_not_digit (c : ascii) : is_space c = true -> is_digit c = false.
Proof.
  intros H. destruct (is_digit c) eqn:D; [|reflexivity].
  apply digit_not_space in D. congruence.
Qed.

Lemma score_span_here_blank (u ws : str) :
  blank ws -> u <> [] ->
  score_span_here (u ++ ws) =
  option_map (fun rest => rest ++ ws) (score_span_here u).
Proof.
  intros Hws Hu. unfold score_span_here, score_tag_here.
  rewrite strip_prefix_blank by (auto; reflexivity).
  destruct (strip_prefix (lit "<SCORE:") u) as [t|]; [|reflexivity].
  cbn [option_map]. rewrite span_blank.
  - destruct (span is_digit t) as [[|d ds] [|c post]]; cbn [fst snd app];
      try reflexivity.
    + destruct ws as [|w ws]; [reflexivity|].
      unfold blank in Hws. cbn [forallb] in Hws.
      apply andb_prop in Hws as [Hw _].
      assert (Ascii.eqb w ">" = false) as ->; [|reflexivity].
      apply Ascii.eqb_neq. intros ->. discriminate.
    + now destruct (Ascii.eqb c ">").
  - intros c Hc. apply space_not_digit.
    unfold blank in Hws. rewrite forallb_forall in Hws. now apply Hws.
Qed.

Lemma think_span_here_blank (u ws : str) :
  blank ws -> u <> [] ->
  think_span_here (u ++ ws) =
  option_map (fun rest => rest ++ ws) (think_span_here u).
Proof.
  intros Hws Hu. unfold think_span_here.
  rewrite strip_prefix_blank by (auto; reflexivity).
  destruct (strip_prefix (lit "<think>") u) as [t|]; [|reflexivity].
  cbn [option_map]. rewrite cut_blank by (auto; reflexivity || discriminate).
  now destruct (cut (lit "</think>") t) as [[a b]|].
Qed.

Lemma score_span_here_space (c : ascii) (u : str) :
  is_space c = true -> score_span_here (c :: u) = None.
Proof.
  intros H. unfold score_span_here, score_tag_here.
  now rewrite strip_prefix_space by (auto; reflexivity || discriminate).
Qed.

Lemma think_span_here_space (c : ascii) (u : str) :
  is_space c = true -> think_span_here (c :: u) = None.
Proof.
  intros H. unfold think_span_here.
  now rewrite strip_prefix_space by (auto; reflexivity || discriminate).
Qed.

Lemma score_span_here_shorter (u rest : str) :
  score_span_here u = Some rest -> List.length rest < List.length u.
Proof.
  unfold score_span_here. intros H.
  destruct (score_tag_here u) as [[ds post]|] eqn:E; [|discriminate].
  injection H as <-. apply score_tag_here_Some in E as [_ ->].
  rewrite !length_app. simpl. lia.
Qed.

Lemma think_span_here_shorter (u rest : str) :
  think_span_here u = Some rest -> List.length rest < List.length u.
Proof.
  unfold think_span_here. intros H.
  destruct (strip_prefix (lit "<think>") u) as [t|] eqn:P; [|discriminate].
  destruct (cut (lit "</think>") t) as [[a b]|] eqn:C; [|discriminate].
  injection H as <-. apply strip_prefix_Some in P. apply cut_Some in C.
  subst. rewrite !length_app. simpl. lia.
Qed.

End NarrativeFacts.

Module CleanFacts.
Import Spec SpecFacts RegExpFacts ScanFacts FenceFacts ScoreFacts.
Import CorrectedCodeFacts RemoveFacts TrimFacts NarrativeFacts App ValidationResults.

(** A pattern that opens with a non-empty literal matches no empty
    text. *)
Lemma exec_Cat_Lit_nonempty (c : ascii) (n : str) (r : regex)
      (u w : str) (cap : option str) (rest : str) :
  exec_here (Cat (Lit (c :: n)) r) u = Some (w, cap, rest) -> w <> [].
Proof.
  unfold exec_here. rewrite matches_Cat_Lit.
  destruct (strip_prefix (c :: n) u) as [t|]; [|discriminate].
  rewrite hd_error_map.
  destruct (hd_error (matches r t)) as [[[b cb] s2]|]; [|discriminate].
  cbn. intros H. injection H as <- _ _. discriminate.
Qed.

Lemma replace_g_score_tags (s : str) :
  replace_g score_tag_re [] s = remove_score_tags s.
Proof.
  apply replace_g_remove_spans.
  - intros u. rewrite exec_score_tag_re. unfold score_span_here.
    destruct (score_tag_here u) as [[ds post]|]; reflexivity.
  - intros u w cap rest. apply exec_Cat_Lit_nonempty.
  - reflexivity.
  - apply score_span_here_shorter.
Qed.

Lemma replace_g_think_spans (s : str) :
  replace_g think_re [] s = remove_think_spans s.
Proof.
  apply replace_g_remove_spans.
  - apply exec_think_re.
  - intros u w cap rest. apply exec_Cat_Lit_nonempty.
  - reflexivity.
  - apply think_span_here_shorter.
Qed.

Lemma blank_In (ws : str) (c : ascii) : blank ws -> In c ws -> is_space c = true.
Proof. unfold blank. rewrite forallb_forall. auto. Qed.

(** White space around a text stays around it when the tags are
    removed. *)
Lemma remove_score_tags_blank_around (ws1 s ws2 : str) :
  blank ws1 -> blank ws2 ->
  remove_score_tags (ws1 ++ s ++ ws2) = ws1 ++ remove_score_tags s ++ ws2.
Proof.
  intros B1 B2. unfold remove_score_tags.
  rewrite remove_spans_leading.
  - f_equal. apply remove_spans_trailing.
    + apply score_span_here_shorter.
    + intros c u Hc. apply score_span_here_space. now apply (blank_In ws2).
    + intros c u. now apply score_span_here_blank.
  - apply score_span_here_shorter.
  - intros c u Hc. apply score_span_here_space. now apply (blank_In ws1).
Qed.

Lemma remove_think_spans_blank_around (ws1 s ws2 : str) :
  blank ws1 -> blank ws2 ->
  remove_think_spans (ws1 ++ s ++ ws2) = ws1 ++ remove_think_spans s ++ ws2.
Proof.
  intros B1 B2. unfold remove_think_spans.
  rewrite remove_spans_leading.
  - f_equal. apply remove_spans_trailing.
    + apply think_span_here_shorter.
    + intros c u Hc. apply think_span_here_space. now apply (blank_In ws2).
    + intros c u. now apply think_span_here_blank.
  - apply think_span_here_shorter.
  - intros c u Hc. apply think_span_here_space. now apply (blank_In ws1).
Qed.

(** Trimming before the tags are removed changes nothing once the
    result is trimmed. *)
Lemma trim_remove_trim (s : str) :
  trim (remove_think_spans (remove_score_tags (trim s))) =
  trim (remove_think_spans (remove_score_tags s)).
Proof.
  destruct (trim_split s) as (ws1 & ws2 & B1 & B2 & E).
  rewrite E at 2.
  rewrite remove_score_tags_blank_around, remove_think_spans_blank_around
    by assumption.
  now rewrite trim_blank_around.
Qed.

Lemma cleanedResult_stored (raw : str) :
  cleanedResult (trim (replace fence_re [] raw)) = narrative raw.
Proof.
  unfold cleanedResult, narrative.
  rewrite replace_fence_re, replace_g_score_tags, replace_g_think_spans.
  apply trim_remove_trim.
Qed.

End CleanFacts.

Module NarrativeClaims.
Import Spec CorrectedCodeFacts CleanFacts App ValidationResults.

(** C4.  For every raw response, the narrative that is classified for
    display is the raw text without its first fenced block (removed
    when the outcome is stored), then without its score tags and
    without its thinking spans (removed when the narrative is
    classified), trimmed; the text "<think>internal notes</think>Visible
    text" gives "Visible text". *)
Theorem narrative_is_cleaned_text (file : FileWithContent.t) (raw : str) :
  (exists v,
      build_result file raw = inr v /\
      cleanedResult (ValidationResult.result v) = narrative raw) /\
  (exists v,
      build_result file (lit "<think>internal notes</think>Visible text")
      = inr v /\
      cleanedResult (ValidationResult.result v) = lit "Visible text").
Proof.
  split; [|eexists; split; reflexivity].
  rewrite build_result_block. eexists. split; [reflexivity|].
  cbn [ValidationResult.result].
  rewrite <- cleanedResult_stored. now rewrite FenceFacts.replace_fence_re.
Qed.

End NarrativeClaims.

(** ** Section classification *)

Module ClassifyFacts.
Import Spec ValidationResults.

Lemma section_after_trigger (cur : section) (line : str) :
  section_after cur line =
  match trigger line with Some k => k | None => cur end.
Proof.
  unfold section_after, trigger.
  destruct (includes (toLowerCase line) (lit "security"));
    destruct (includes (toLowerCase line) (lit "vulnerability"));
    destruct (includes (toLowerCase line) (lit "performance"));
    destruct (includes (toLowerCase line) (lit "optimization"));
    destruct (includes (toLowerCase line) (lit "suggestion"));
    destruct (includes (toLowerCase line) (lit "recommendation"));
    reflexivity.
Qed.

Lemma last_app_singleton (A : Type) (l : list A) (x d : A) :
  last (l ++ [x]) d = x.
Proof. apply last_last. Qed.

Lemma triggers_snoc (lines : list str) (l : str) :
  last (triggers (lines ++ [l])) Analysis =
  match trigger l with
  | Some k => k
  | None => last (triggers lines) Analysis
  end.
Proof.
  unfold triggers. rewrite flat_map_app. cbn [flat_map].
  destruct (trigger l); [apply last_last | now rewrite !app_nil_r].
Qed.

Lemma cursor_at_last (lines : list str) (l : str) :
  cursor_at (lines ++ [l]) (List.length lines) =
  last (triggers (lines ++ [l])) Analysis.
Proof.
  unfold cursor_at, triggers.
  rewrite firstn_all2; [reflexivity|]. rewrite length_app. simpl. lia.
Qed.

Lemma cursor_at_before (lines : list str) (l : str) (i : nat) :
  i < List.length lines -> cursor_at (lines ++ [l]) i = cursor_at lines i.
Proof.
  intros L. unfold cursor_at. rewrite firstn_app.
  replace (S i - List.length lines) with 0 by lia.
  now rewrite firstn_O, app_nil_r.
Qed.

Lemma lines_of_snoc (key : section) (lines : list str) (l : str) :
  lines_of key (lines ++ [l]) =
  lines_of key lines ++
  (if (truthy (trim l) &&
       section_eqb (cursor_at (lines ++ [l]) (List.length lines)) key)%bool
   then [trim l] else []).
Proof.
  unfold lines_of. rewrite length_app. cbn [List.length].
  rewrite Nat.add_1_r, seq_S, filter_app, map_app. cbn [Nat.add filter].
  rewrite nth_middle. f_equal.
  - assert (forall i, In i (seq 0 (List.length lines)) ->
                      i < List.length lines) as B
        by (intros i Hi; apply in_seq in Hi; lia).
    revert B. generalize (seq 0 (List.length lines)) as idx.
    induction idx as [|i idx IH]; intros B; [reflexivity|].
    cbn [filter]. rewrite app_nth1 by (apply B; now left).
    rewrite cursor_at_before by (apply B; now left).
    destruct (truthy (trim (nth i lines [])) &&
              section_eqb (cursor_at lines i) key)%bool.
    + cbn [map]. rewrite app_nth1 by (apply B; now left). f_equal.
      apply IH. intros j Hj. apply B. now right.
    + apply IH. intros j Hj. apply B. now right.
  - destruct (truthy (trim l) &&
              section_eqb (cursor_at (lines ++ [l]) (List.length lines)) key)%bool;
      cbn [map]; now rewrite ?nth_middle.
Qed.

Lemma items_push (key k : section) (line : str) (secs : sections) :
  items key (push k line secs) =
  items key secs ++ (if section_eqb k key then [line] else []).
Proof.
  destruct key, k; cbn; now rewrite ?app_nil_r.
Qed.

(** The loop keeps, as its cursor, the last trigger met, and under each
    key the lines at which the key was in force. *)
Lemma fold_visit_spec (lines : list str) :
  fst (fold_left visit lines (Analysis, empty_sections)) =
    last (triggers lines) Analysis /\
  forall key,
    items key (snd (fold_left visit lines (Analysis, empty_sections))) =
    lines_of key lines.
Proof.
  induction lines as [|l lines [IHc IHs]] using rev_ind.
  - split; [reflexivity|]. now intros [].
  - rewrite fold_left_app. cbn [fold_left].
    unfold visit at 1 3. cbn [fst snd].
    rewrite section_after_trigger, IHc, <- triggers_snoc.
    split; [reflexivity|]. intros key.
    rewrite lines_of_snoc, cursor_at_last.
    destruct (truthy (trim l)); cbn [andb].
    + now rewrite items_push, IHs.
    + now rewrite IHs, app_nil_r.
Qed.

End ClassifyFacts.

Module ClassifyClaims.
Import Spec ClassifyFacts ValidationResults.

(** C5, as amended.  Classification scans the lines with one cursor
    that starts at [Analysis]: a line that carries a trigger (looked for
    without regard to case, security and vulnerability first, then
    performance and optimization, then suggestion and recommendation)
    moves the cursor, any other line leaves it; every non-blank line is
    listed, trimmed, under the cursor in force after the line was looked
    at.  For the lines "intro", "Security issue found", "still here",
    "Suggest refactor" the last line carries no trigger, so [analysis]
    has "intro" and [security] has the three other lines. *)
Theorem classification_is_sticky (lines : list str) :
  (forall key, items key (classify lines) = lines_of key lines) /\
  (forall result key,
      items key (processAnalysisResult result) =
      lines_of key (split newline (cleanedResult result))) /\
  (forall cur line,
      section_after cur line =
      match trigger line with Some k => k | None => cur end) /\
  (forall cur l l',
      toLowerCase l = toLowerCase l' ->
      section_after cur l = section_after cur l') /\
  classify [lit "intro"; lit "Security issue found"; lit "still here";
            lit "Suggest refactor"] =
  mkSections [lit "intro"] []
    [lit "Security issue found"; lit "still here"; lit "Suggest refactor"] [].
Proof.
  split; [|split; [|split; [|split]]].
  - apply fold_visit_spec.
  - intros result key. apply fold_visit_spec.
  - apply section_after_trigger.
  - intros cur l l' E. unfold section_after. now rewrite E.
  - reflexivity.
Qed.

Lemma classification_is_sticky_witness :
  toLowerCase (lit "SECURITY hole") = toLowerCase (lit "security HOLE") /\
  section_after Analysis (lit "SECURITY hole") =
  section_after Analysis (lit "security HOLE").
Proof.
  split; [reflexivity|].
  exact (proj1 (proj2 (proj2 (proj2 (classification_is_sticky []))))
           Analysis (lit "SECURITY hole") (lit "security HOLE") eq_refl).
Defined.

(** C5 as stated fails on its own example: "Suggest refactor" contains
    neither "suggestion" nor "recommendation", so it is listed under
    [security] and [suggestions] stays empty. *)
Lemma suggest_refactor_is_no_trigger :
  suggestions
    (classify [lit "intro"; lit "Security issue found"; lit "still here";
               lit "Suggest refactor"]) = [] /\
  security
    (classify [lit "intro"; lit "Security issue found"; lit "still here";
               lit "Suggest refactor"]) <>
  [lit "Security issue found"; lit "still here"].
Proof.
  split; [reflexivity | discriminate].
Qed.

End ClassifyClaims.

(** ** A response without any pattern *)

Module PlainFacts.
Import Spec SpecFacts ScanFacts ScoreFacts RemoveFacts TrimFacts NarrativeFacts.
Import ClassifyFacts App ValidationResults.

Lemma startsWith_app (s n : str) : startsWith s n = true -> exists b, s = n ++ b.
Proof.
  revert s. induction n as [|a n IH]; intros s H.
  - now exists s.
  - destruct s as [|c s]; [discriminate|]. cbn [startsWith] in H.
    apply andb_prop in H as [E H]. apply Ascii.eqb_eq in E. subst c.
    destruct (IH s H) as [b ->]. now exists b.
Qed.

Lemma startsWith_prefix (n b : str) : startsWith (n ++ b) n = true.
Proof.
  induction n as [|a n IH]; [now destruct b|].
  cbn [app startsWith]. now rewrite Ascii.eqb_refl, IH.
Qed.

Lemma includes_occurs (s n : str) : includes s n = true <-> occurs n s.
Proof.
  split.
  - induction s as [|c s IH]; cbn [includes]; intros H.
    + rewrite orb_false_r in H. destruct (startsWith_app _ _ H) as [b E].
      now exists [], b.
    + apply orb_prop in H as [H|H].
      * destruct (startsWith_app _ _ H) as [b E]. now exists [], b.
      * destruct (IH H) as (a & b & ->). now exists (c :: a), b.
  - intros (a & b & ->). induction a as [|c a IH].
    + cbn [app]. destruct (n ++ b) eqn:E; cbn [includes];
        rewrite <- E, startsWith_prefix; reflexivity.
    + cbn [app includes]. now rewrite IH, orb_true_r.
Qed.

Lemma occurs_inside (n a s b : str) : occurs n s -> occurs n (a ++ s ++ b).
Proof.
  intros (x & y & ->). exists (a ++ x), (y ++ b).
  now rewrite <- !app_assoc.
Qed.

Lemma split_head (sep : ascii) (s : str) :
  exists piece pieces b, split sep s = piece :: pieces /\ s = piece ++ b.
Proof.
  induction s as [|c s (piece & pieces & b & E & Hs)]; cbn [split].
  - now exists [], [], [].
  - destruct (Ascii.eqb c sep).
    + now exists [], (split sep s), (c :: s).
    + rewrite E. exists (c :: piece), pieces, b. now rewrite Hs at 1.
Qed.

(** Every piece of a split text is a part of the text. *)
Lemma split_inside (sep : ascii) (s line : str) :
  In line (split sep s) -> exists a b, s = a ++ line ++ b.
Proof.
  revert line. induction s as [|c s IH]; intros line H; cbn [split] in H.
  - destruct H as [<-|[]]. now exists [], [].
  - destruct (Ascii.eqb c sep).
    + destruct H as [<-|H]; [now exists [], (c :: s)|].
      destruct (IH line H) as (a & b & ->). now exists (c :: a), b.
    + destruct (split_head sep s) as (piece & pieces & b & E & Hs).
      rewrite E in H, IH. destruct H as [<-|H].
      * exists [], b. cbn [app]. now rewrite Hs at 1.
      * destruct (IH line (or_intror H)) as (a & b' & ->).
        now exists (c :: a), b'.
Qed.

Lemma not_includes_inside (a s b n : str) :
  includes (toLowerCase (a ++ s ++ b)) n = false ->
  includes (toLowerCase s) n = false.
Proof.
  intros H. destruct (includes (toLowerCase s) n) eqn:E; [|reflexivity].
  apply includes_occurs in E.
  unfold toLowerCase in H. rewrite !map_app in H.
  apply (occurs_inside n (map lower_char a) _ (map lower_char b)) in E.
  apply includes_occurs in E. unfold toLowerCase in E. congruence.
Qed.

Lemma trigger_inside (a s b : str) :
  trigger (a ++ s ++ b) = None -> trigger s = None.
Proof.
  unfold trigger. intros H.
  repeat match type of H with
         | (if ?c then _ else _) = None =>
             let E := fresh "E" in
             destruct c eqn:E; [discriminate|];
             apply not_includes_inside in E; rewrite E
         end.
  reflexivity.
Qed.

(** Without triggers every non-blank line lands in [analysis]. *)
Lemma classify_no_trigger (lines : list str) :
  (forall l, In l lines -> trigger l = None) ->
  classify lines = mkSections (non_blank_lines lines) [] [] [].
Proof.
  intros H. unfold classify, non_blank_lines, empty_sections.
  assert (forall acc,
            fold_left visit lines (Analysis, mkSections acc [] [] []) =
            (Analysis,
             mkSections
               (acc ++ map trim (filter (fun l => truthy (trim l)) lines))
               [] [] [])) as G.
  { induction lines as [|l lines IH]; intros acc; cbn [fold_left filter map].
    - now rewrite app_nil_r.
    - unfold visit at 2. cbn [fst snd].
      rewrite section_after_trigger, (H l) by now left.
      destruct (truthy (trim l)); cbn [push analysis suggestions security
                                       performance map].
      + rewrite IH by (intros; apply H; now right).
        now rewrite <- app_assoc.
      + apply IH. intros; apply H; now right. }
  now rewrite G.
Qed.

Section Identity.
Variable here : str -> option str.
Hypothesis here_shorter :
  forall u rest, here u = Some rest -> List.length rest < List.length u.

(** Where no span starts, nothing is removed. *)
Lemma remove_spans_id (s : str) :
  (forall a u, s = a ++ u -> here u = None) -> remove_spans here s = s.
Proof.
  induction s as [|c s IH]; intros H; [reflexivity|].
  rewrite remove_spans_cons by assumption.
  rewrite (H [] (c :: s) eq_refl). f_equal. apply IH.
  intros a u ->. now apply (H (c :: a)).
Qed.
End Identity.

Lemma remove_score_tags_id (s : str) : no_score_tag s -> remove_score_tags s = s.
Proof.
  intros H. apply remove_spans_id; [apply score_span_here_shorter|].
  intros a u ->. unfold score_span_here.
  destruct (score_tag_here u) as [[ds post]|] eqn:E; [exfalso|reflexivity].
  destruct (score_tag_here_Some _ _ _ E) as [Hds ->].
  apply (H a ds). exists (lit "<SCORE:" ++ ds ++ lit ">"), post.
  split; [split; [assumption | reflexivity] | reflexivity].
Qed.

Lemma remove_think_spans_id (s : str) :
  ~ occurs (lit "<think>") s -> remove_think_spans s = s.
Proof.
  intros H. apply remove_spans_id; [apply think_span_here_shorter|].
  intros a u ->. unfold think_span_here.
  destruct (strip_prefix (lit "<think>") u) as [t|] eqn:P; [exfalso|reflexivity].
  apply strip_prefix_Some in P. subst u. apply H. now exists a, t.
Qed.

End PlainFacts.

Module TotalityClaims.
Import Spec CorrectedCodeFacts CleanFacts TrimFacts PlainFacts ScoreFacts.
Import ScanFacts App ValidationResults.

(** C6.  The response parser is total: every response text is parsed
    into a result, nothing is thrown; and a text with no score tag, no
    fenced block, no thinking tag and no trigger keyword gives score 0,
    no corrected code, and all its non-blank lines under [analysis]. *)
Theorem parser_never_throws (file : FileWithContent.t) (raw : str) :
  (exists v, build_result file raw = inr v) /\
  (no_score_tag raw ->
   first_fenced_block raw = None ->
   ~ occurs (lit "<think>") raw ->
   trigger raw = None ->
   exists v,
     build_result file raw = inr v /\
     ValidationResult.score v = Num 0 /\
     ValidationResult.correctedCode v = None /\
     ValidationResult.hasCorrections v = false /\
     processAnalysisResult (ValidationResult.result v) =
     mkSections (non_blank_lines (split newline (trim raw))) [] [] []).
Proof.
  rewrite build_result_block. split; [eexists; reflexivity|].
  intros Hs Hf Ht Hk. eexists. split; [reflexivity|].
  cbn [ValidationResult.score ValidationResult.correctedCode
       ValidationResult.hasCorrections ValidationResult.result].
  rewrite Hf. repeat split.
  - rewrite extract_score_scan. now rewrite (scan_no_score_tag _ Hs).
  - unfold processAnalysisResult.
    rewrite <- FenceFacts.replace_fence_re, cleanedResult_stored.
    unfold narrative, remove_first_fenced_block. rewrite Hf.
    rewrite remove_score_tags_id, remove_think_spans_id by assumption.
    apply classify_no_trigger. intros l Hl.
    destruct (split_inside _ _ _ Hl) as (a & b & E).
    destruct (trim_split raw) as (ws1 & ws2 & _ & _ & R).
    apply (trigger_inside (ws1 ++ a) l (b ++ ws2)).
    rewrite R, E, <- !app_assoc in Hk. now rewrite <- !app_assoc.
Qed.

Lemma parser_never_throws_witness :
  no_score_tag Samples.plain_text /\
  first_fenced_block Samples.plain_text = None /\
  ~ occurs (lit "<think>") Samples.plain_text /\
  trigger Samples.plain_text = None /\
  exists v,
    build_result Samples.file_a Samples.plain_text = inr v /\
    ValidationResult.score v = Num 0 /\
    ValidationResult.correctedCode v = None /\
    ValidationResult.hasCorrections v = false /\
    processAnalysisResult (ValidationResult.result v) =
    mkSections [lit "Looks fine."; lit "No issues."] [] [] [].
Proof.
  assert (no_score_tag Samples.plain_text) as S
      by (apply no_score_tag_intro; reflexivity).
  assert (~ occurs (lit "<think>") Samples.plain_text) as T
      by (intros H; apply includes_occurs in H; discriminate).
  split; [exact S|]. split; [reflexivity|]. split; [exact T|].
  split; [reflexivity|].
  exact (proj2 (parser_never_throws Samples.file_a Samples.plain_text)
           S eq_refl T eq_refl).
Defined.

End TotalityClaims.

(** ** The response parser: score and corrected code *)

Module ParserClaims.
Import Spec SpecFacts ScanFacts ScoreFacts CorrectedCodeFacts App.

(** C2.  For every raw response the extracted score is an integer in
    [0, 100]; when the response has a score tag, the score is the number
    written in its first tag, brought to the nearest bound; when it has
    none, the score is 0. *)
Theorem score_in_range (raw : str) :
  (exists z, extract_score raw = Num z /\ (0 <= z <= 100)%Z) /\
  (forall pre ds,
      first_score_tag pre ds raw ->
      extract_score raw = Num (Z.min (Z.max (decimal ds) 0) 100)) /\
  (no_score_tag raw -> extract_score raw = Num 0).
Proof.
  rewrite extract_score_scan. repeat split.
  - destruct (scan score_tag_here raw) as [[pre [ds post]]|].
    + exists (clamp (decimal ds)). unfold clamp. split; [reflexivity | lia].
    + exists 0%Z. split; [reflexivity | lia].
  - intros pre ds H. destruct (scan_first_score_tag _ _ _ H) as [post ->].
    reflexivity.
  - intros H. now rewrite (scan_no_score_tag _ H).
Qed.

(** "<SCORE:150>" yields 100, and "<SCORE:-5>", which has no tag,
    yields 0. *)
Lemma score_in_range_witness :
  (first_score_tag [] (lit "150") (lit "<SCORE:150>") /\
   extract_score (lit "<SCORE:150>") = Num 100) /\
  (no_score_tag (lit "<SCORE:-5>") /\
   extract_score (lit "<SCORE:-5>") = Num 0).
Proof.
  assert (first_score_tag [] (lit "150") (lit "<SCORE:150>")) as F.
  { split.
    - exists (lit "<SCORE:150>"), []. repeat split; discriminate.
    - intros pre' ds' _. simpl. lia. }
  assert (no_score_tag (lit "<SCORE:-5>")) as N
      by (apply no_score_tag_intro; reflexivity).
  split; split; try assumption.
  - exact (proj1 (proj2 (score_in_range (lit "<SCORE:150>"))) [] (lit "150") F).
  - exact (proj2 (proj2 (score_in_range (lit "<SCORE:-5>"))) N).
Defined.

(** C3, as amended.  Corrected-code extraction uses only the first
    fenced block: when there is one, [correctedCode] is its trimmed
    interior and [hasCorrections] tells whether that trimmed interior is
    non-empty; the text after the block, later blocks included, changes
    neither; when there is no fenced block, [correctedCode] is unset and
    [hasCorrections] is false. *)
Theorem corrected_code_is_first_block (file : FileWithContent.t) (raw : str) :
  exists v,
    build_result file raw = inr v /\
    match first_fenced_block raw with
    | Some (pre, inner, post) =>
        ValidationResult.correctedCode v = Some (trim inner) /\
        ValidationResult.hasCorrections v = truthy (trim inner) /\
        exists block,
          raw = pre ++ block ++ post /\
          forall post', exists v',
            build_result file (pre ++ block ++ post') = inr v' /\
            ValidationResult.correctedCode v' = ValidationResult.correctedCode v /\
            ValidationResult.hasCorrections v' = ValidationResult.hasCorrections v
    | None =>
        ValidationResult.correctedCode v = None /\
        ValidationResult.hasCorrections v = false
    end.
Proof.
  rewrite build_result_block. eexists. split; [reflexivity|].
  destruct (first_fenced_block raw) as [[[pre inner] post]|] eqn:F;
    cbn [ValidationResult.correctedCode ValidationResult.hasCorrections];
    [|split; reflexivity].
  split; [reflexivity|]. split; [reflexivity|].
  destruct (first_fenced_block_change_suffix _ _ _ _ F) as (block & E & S).
  exists block. split; [assumption|]. intros post'.
  rewrite build_result_block, (S post'). eexists. split; [reflexivity|].
  split; reflexivity.
Qed.

(** C3 as stated fails: the response made of an opening and a closing
    fence has a fenced block, yet [hasCorrections] is false, and
    [correctedCode] is the empty string. *)
Lemma empty_block_has_no_corrections :
  first_fenced_block (lit "``````") = Some ([], [], []) /\
  exists v,
    build_result Samples.file_a (lit "``````") = inr v /\
    ValidationResult.correctedCode v = Some [] /\
    ValidationResult.hasCorrections v = false.
Proof.
  split; [reflexivity|]. eexists. split; [reflexivity|]. split; reflexivity.
Qed.

End ParserClaims.

(** ** The batch *)

Module BatchFacts.
Import App.

(** A resumed call either stores the result it was going to store, or
    moves to its second [await] with the same result ahead; the files
    are not touched. *)
Lemma resume_outcome (t : task) (st : AppState) (t' : option task)
      (st' : AppState) :
  resume t st = (t', st') ->
  files st' = files st /\
  match t' with
  | None => validationResults st' = validationResults st ++ [pending_outcome t]
  | Some u =>
      validationResults st' = validationResults st /\
      pending_outcome u = pending_outcome t
  end.
Proof.
  destruct t as [file [e|status b]|file [e|data]]; cbn [resume].
  - intros H. injection H as <- <-. split; reflexivity.
  - unfold pending_outcome, outcome, try_block.
    destruct (ok status) eqn:O; intros H; injection H as <- <-.
    + split; [reflexivity|]. split; reflexivity.
    + split; reflexivity.
  - intros H. injection H as <- <-. split; reflexivity.
  - unfold pending_outcome, outcome, try_block. cbn [ok Nat.leb andb].
    destruct (handle_data file data) as [e|v]; intros H;
      injection H as <- <-; split; reflexivity.
Qed.

(** [outcome] is what a call of [processFile] stores. *)
Lemma processFile_stores (file : FileWithContent.t) (r : reply) (st : AppState) :
  validationResults (processFile file r st) =
  validationResults st ++ [outcome file r].
Proof.
  unfold processFile, processFile_start.
  destruct (resume (AwaitFetch file r) _) as [[u|] st1] eqn:R1.
  - destruct (resume_outcome _ _ _ _ R1) as [_ [V1 O1]].
    destruct (resume u st1) as [o st2] eqn:R2.
    destruct (resume_outcome _ _ _ _ R2) as [_ V2]. cbn [snd].
    destruct o as [w|].
    + exfalso. destruct r as [e|status b]; cbn [resume] in R1; [discriminate|].
      destruct (ok status); [|discriminate]. injection R1 as <- <-.
      cbn [resume] in R2. destruct b as [e|data]; [discriminate|].
      destruct (handle_data file data); discriminate.
    + rewrite V2, V1, O1. reflexivity.
  - destruct (resume_outcome _ _ _ _ R1) as [_ V1]. rewrite V1. reflexivity.
Qed.

Lemma step_invariant (c1 c2 : list task * AppState) :
  step c1 c2 ->
  files (snd c2) = files (snd c1) /\
  Permutation
    (validationResults (snd c2) ++ map pending_outcome (fst c2))
    (validationResults (snd c1) ++ map pending_outcome (fst c1)).
Proof.
  intros [before t after st t' st' R]. cbn [fst snd].
  destruct (resume_outcome _ _ _ _ R) as [F O]. split; [assumption|].
  destruct t' as [u|]; cbn [app]; rewrite !map_app; cbn [map].
  - destruct O as [-> ->]. reflexivity.
  - rewrite O, <- app_assoc. cbn [app].
    apply Permutation_app_head. apply Permutation_middle.
Qed.

Lemma steps_invariant (c1 c2 : list task * AppState) :
  steps c1 c2 ->
  files (snd c2) = files (snd c1) /\
  Permutation
    (validationResults (snd c2) ++ map pending_outcome (fst c2))
    (validationResults (snd c1) ++ map pending_outcome (fst c1)).
Proof.
  induction 1 as [c|c1 c2 c3 S _ [F P]].
  - split; reflexivity.
  - destruct (step_invariant _ _ S) as [F' P']. split.
    + now rewrite F.
    + now rewrite P.
Qed.

Lemma start_all_spec (net : nat -> reply) (fs : list FileWithContent.t)
      (i : nat) (st : AppState) :
  files (snd (start_all net i fs st)) = files st /\
  validationResults (snd (start_all net i fs st)) = validationResults st /\
  map pending_outcome (fst (start_all net i fs st)) = outcomes net i fs.
Proof.
  revert i st. induction fs as [|f fs IH]; intros i st; cbn [start_all].
  - repeat split.
  - unfold processFile_start.
    destruct (start_all net (S i) fs _) as [ts st2] eqn:E.
    specialize (IH (S i)
      (setStreamingState
         (fun prev =>
            StreamingState.make (StreamingState.isAnalyzing prev)
              (FileWithContent.path f) (lit "Analyzing code...")) st)).
    rewrite E in IH. cbn [fst snd] in *. destruct IH as (F & V & O).
    repeat split; try assumption. cbn [map pending_outcome]. now rewrite O.
Qed.

Lemma outcomes_length (net : nat -> reply) (fs : list FileWithContent.t) (i : nat) :
  List.length (outcomes net i fs) = List.length fs.
Proof.
  revert i. induction fs as [|f fs IH]; intros i; simpl; [reflexivity|].
  now rewrite IH.
Qed.

(** What a batch leaves behind: one result per file, in the order in
    which the calls finished. *)
Lemma validateCode_results (net : nat -> reply) (st st' : AppState) :
  validateCode net st st' ->
  files st' = files st /\
  (files st <> [] ->
   Permutation (validationResults st') (outcomes net 0 (files st))).
Proof.
  intros [st0 E|st0 st1 N S].
  - split; [reflexivity|]. destruct (files st0); [congruence | discriminate].
  - apply steps_invariant in S. destruct S as [F P].
    pose proof (start_all_spec net (files st0) 0
                  (setValidationResults (fun _ => [])
                     (setStreamingState (fun _ => analyzing) st0)))
      as (F0 & V0 & O0).
    cbn [fst snd map] in *. rewrite app_nil_r in P.
    split.
    + cbn [setStreamingState files]. rewrite F, F0. reflexivity.
    + intros _. cbn [setStreamingState validationResults].
      rewrite P, V0, O0. reflexivity.
Qed.

(** *** A batch always comes to its end *)

Lemma steps_trans (c1 c2 c3 : list task * AppState) :
  steps c1 c2 -> steps c2 c3 -> steps c1 c3.
Proof.
  induction 1; [auto|]. intros H3. eapply steps_next; eauto.
Qed.

Lemma run_in_order_steps (ts : list task) (st : AppState) :
  steps (ts, st) ([], run_in_order ts st).
Proof.
  revert st. induction ts as [|t ts IH]; intros st; cbn [run_in_order].
  - apply steps_refl.
  - destruct (resume t st) as [[u|] st1] eqn:R1.
    + destruct (resume u st1) as [o st2] eqn:R2.
      eapply steps_next.
      { exact (step_resume [] t ts st _ _ R1). }
      cbn [app].
      assert (o = None) as ->.
      { destruct t as [file [e|status b]|file [e|data]]; cbn [resume] in R1.
        - discriminate.
        - destruct (ok status); [|discriminate]. injection R1 as <- <-.
          cbn [resume] in R2. destruct b as [e|data].
          + now injection R2 as <- _.
          + destruct (handle_data file data); now injection R2 as <- _.
        - discriminate.
        - destruct (handle_data file data); discriminate. }
      eapply steps_next.
      { exact (step_resume [] u ts st1 _ _ R2). }
      apply IH.
    + eapply steps_next.
      { exact (step_resume [] t ts st _ _ R1). }
      apply IH.
Qed.

Lemma validateCode_total (net : nat -> reply) (st : AppState) :
  exists st', validateCode net st st'.
Proof.
  destruct (files st) as [|f fs] eqn:E.
  - exists st. apply validateCode_no_files. now rewrite E.
  - pose (c := start_all net 0 (files st)
                 (setValidationResults (fun _ => [])
                    (setStreamingState (fun _ => analyzing) st))).
    exists (setStreamingState (fun _ => idle) (run_in_order (fst c) (snd c))).
    apply validateCode_batch.
    + rewrite E. discriminate.
    + fold c. destruct c as [ts st1]. apply run_in_order_steps.
Qed.

End BatchFacts.

Module BatchClaims.
Import BatchFacts CorrectedCodeFacts App Samples.

Lemma outcomes_nth (net : nat -> reply) (fs : list FileWithContent.t) (i k : nat) :
  nth_error (outcomes net k fs) i =
  option_map (fun f => outcome f (net (k + i))) (nth_error fs i).
Proof.
  revert i k. induction fs as [|f fs IH]; intros [|i] k; cbn; try reflexivity.
  - now rewrite Nat.add_0_r.
  - rewrite IH. now rewrite Nat.add_succ_r.
Qed.

Lemma finished_run (net : nat -> reply) (st : AppState) :
  files st <> [] -> validateCode net st (finished net st).
Proof.
  intros H. unfold finished.
  pose proof (validateCode_batch net st) as B.
  destruct (start_all net 0 (files st) _) as [ts st1].
  apply B; [|apply run_in_order_steps].
  destruct (files st); [congruence | discriminate].
Qed.

(** C1.  A batch comes to its end, and leaves exactly one result per
    file of the list, whatever the number of requests that fail and
    whatever the order in which the calls finish; without files it
    leaves the state as it is.  The result of a file is the one its
    call of [processFile] stores.  A file whose [try] block throws (the
    request is rejected, the status is not a 2xx one, or handling the
    body throws) gets score 0, no corrections and the text "Error: "
    followed by the error's description; the result of a file depends
    on its own answer only. *)
Theorem one_outcome_per_file (net : nat -> reply) (st : AppState) :
  (exists st', validateCode net st st') /\
  (forall st',
      validateCode net st st' ->
      files st <> [] ->
      Permutation (validationResults st') (outcomes net 0 (files st)) /\
      List.length (validationResults st') = List.length (files st)) /\
  (forall st', validateCode net st st' -> files st = [] -> st' = st) /\
  (forall file r st0,
      validationResults (processFile file r st0) =
      validationResults st0 ++ [outcome file r]) /\
  (forall file r e,
      try_block file r = inl e ->
      outcome file r = error_result file e /\
      ValidationResult.score (outcome file r) = Num 0 /\
      ValidationResult.hasCorrections (outcome file r) = false /\
      ValidationResult.result (outcome file r) = lit "Error: " ++ error_text e) /\
  (forall file e, try_block file (FetchRejected e) = inl e) /\
  (forall file status b,
      ok status = false ->
      try_block file (Responded status b) = inl (server_error status)) /\
  (forall file status e,
      ok status = true ->
      try_block file (Responded status (JsonRejected e)) = inl e) /\
  (forall file status data e,
      ok status = true ->
      handle_data file data = inl e ->
      try_block file (Responded status (JsonParsed data)) = inl e) /\
  (forall net' k,
      (forall i, i <> k -> net' i = net i) ->
      forall i, i <> k ->
                nth_error (outcomes net' 0 (files st)) i =
                nth_error (outcomes net 0 (files st)) i).
Proof.
  split; [apply validateCode_total|].
  split.
  { intros st' V N. destruct (validateCode_results _ _ _ V) as [_ P].
    specialize (P N). split; [assumption|].
    rewrite (Permutation_length P). apply outcomes_length. }
  split.
  { intros st' V E. destruct V as [st0 _|st0 st1 N _]; [reflexivity|].
    rewrite E in N. now contradiction N. }
  split; [apply processFile_stores|].
  split.
  { intros file r e T. unfold outcome. rewrite T. repeat split. }
  split; [reflexivity|].
  split.
  { intros file status b O. cbn [try_block]. now rewrite O. }
  split.
  { intros file status e O. cbn [try_block]. now rewrite O. }
  split.
  { intros file status data e O H. cbn [try_block]. now rewrite O. }
  intros net' k H i Hi. rewrite !outcomes_nth. cbn [Nat.add].
  now rewrite (H i Hi).
Qed.

(** Three files, the request for the second one rejected: three
    results, the second an error, the first and third parsed. *)
Lemma one_outcome_per_file_witness :
  validateCode second_rejects initial (finished second_rejects initial) /\
  files initial <> [] /\
  Permutation
    (validationResults (finished second_rejects initial))
    [ValidationResult.make (lit "a.js") (lit "src/a.js") (lit "let a;")
       (lit "Fine. <SCORE:90>") (Num 90) None false;
     ValidationResult.make (lit "b.py") (lit "src/b.py") (lit "b = 1")
       (lit "Error: Failed to fetch") (Num 0) None false;
     ValidationResult.make (lit "c.ts") (lit "src/c.ts") (lit "let c = 2;")
       (lit "Fine. <SCORE:90>") (Num 90) None false] /\
  List.length (validationResults (finished second_rejects initial)) = 3 /\
  try_block file_b (second_rejects 1) = inl (ErrorObject (lit "Failed to fetch")) /\
  ValidationResult.result (outcome file_b (second_rejects 1)) =
    lit "Error: Failed to fetch" /\
  nth_error (outcomes second_rejects 0 (files initial)) 2 =
    nth_error (outcomes all_answer 0 (files initial)) 2.
Proof.
  assert (files initial <> []) as N by discriminate.
  pose proof (finished_run second_rejects initial N) as V.
  pose proof (one_outcome_per_file second_rejects initial)
    as (_ & P & _ & _ & E & _ & _ & _ & _ & I).
  destruct (P _ V N) as [Perm Len].
  split; [exact V|]. split; [exact N|].
  split; [exact Perm|]. split; [exact Len|].
  split; [reflexivity|].
  split.
  - exact (proj2 (proj2 (proj2 (E file_b (second_rejects 1) _ eq_refl)))).
  - symmetry. apply (I all_answer 1).
    + intros [|[|i]] Hi; try reflexivity. now contradiction Hi.
    + discriminate.
Defined.

Lemma outcomes_In (net : nat -> reply) (fs : list FileWithContent.t)
      (k : nat) (v : ValidationResult.t) :
  In v (outcomes net k fs) -> exists f r, In f fs /\ v = outcome f r.
Proof.
  revert k. induction fs as [|f fs IH]; intros k; cbn; [intros []|].
  intros [<-|H].
  - exists f, (net k). split; [now left | reflexivity].
  - destruct (IH _ H) as (g & r & Hg & ->). exists g, r. split; [now right | reflexivity].
Qed.

Lemma outcome_fields (file : FileWithContent.t) (r : reply) :
  ValidationResult.fileName (outcome file r) = FileWithContent.name file /\
  ValidationResult.path (outcome file r) = FileWithContent.path file /\
  ValidationResult.code (outcome file r) = FileWithContent.content file.
Proof.
  unfold outcome.
  destruct (try_block file r) as [e|v] eqn:T; [repeat split|].
  destruct r as [e|status [e|data]]; cbn [try_block] in T;
    try discriminate; destruct (ok status); try discriminate.
  unfold handle_data in T.
  destruct (Json.or_else _ _) as [| |b|n|s|a|o]; try discriminate.
  rewrite build_result_block in T. injection T as <-. repeat split.
Qed.

(** C10.  Every result of a batch, stored by the [try] block or by the
    [catch] clause, carries its file unchanged: [fileName] is the
    file's name, [path] its path and [code] its content; and the list
    of files is the same after the batch as before. *)
Theorem outcome_carries_file (net : nat -> reply) (st st' : AppState) :
  (forall file r,
      ValidationResult.fileName (outcome file r) = FileWithContent.name file /\
      ValidationResult.path (outcome file r) = FileWithContent.path file /\
      ValidationResult.code (outcome file r) = FileWithContent.content file) /\
  (forall file e,
      ValidationResult.fileName (error_result file e) = FileWithContent.name file /\
      ValidationResult.path (error_result file e) = FileWithContent.path file /\
      ValidationResult.code (error_result file e) = FileWithContent.content file) /\
  (validateCode net st st' ->
   files st' = files st /\
   (files st <> [] ->
    forall v, In v (validationResults st') ->
              exists file,
                In file (files st) /\
                ValidationResult.fileName v = FileWithContent.name file /\
                ValidationResult.path v = FileWithContent.path file /\
                ValidationResult.code v = FileWithContent.content file)).
Proof.
  split; [apply outcome_fields|]. split; [repeat split|].
  intros V. destruct (validateCode_results _ _ _ V) as [F P].
  split; [assumption|]. intros N v Hv.
  apply (Permutation_in _ (P N)) in Hv.
  destruct (outcomes_In _ _ _ _ Hv) as (f & r & Hf & ->).
  exists f. split; [assumption | apply outcome_fields].
Qed.

Lemma outcome_carries_file_witness :
  validateCode second_rejects initial (finished second_rejects initial) /\
  files (finished second_rejects initial) = files initial /\
  exists file,
    In file (files initial) /\
    ValidationResult.fileName (outcome file_b (second_rejects 1)) =
      FileWithContent.name file /\
    ValidationResult.path (outcome file_b (second_rejects 1)) =
      FileWithContent.path file /\
    ValidationResult.code (outcome file_b (second_rejects 1)) =
      FileWithContent.content file.
Proof.
  assert (files initial <> []) as N by discriminate.
  pose proof (finished_run second_rejects initial N) as V.
  destruct (proj2 (proj2 (outcome_carries_file second_rejects initial
                            (finished second_rejects initial))) V)
    as [F A].
  split; [exact V|]. split; [exact F|].
  apply (A N). right. left. reflexivity.
Defined.

End BatchClaims.

Module FallbackClaims.
Import App Samples.

(** The result built from the fallback text. *)
Lemma build_result_no_response (file : FileWithContent.t) :
  build_result file no_response =
  inr (ValidationResult.make
         (FileWithContent.name file) (FileWithContent.path file)
         (FileWithContent.content file) no_response (Num 0) None false).
Proof. reflexivity. Qed.

(** C8.  When the request succeeds and the body's
    [choices[0].message.content] is missing, or is the empty string,
    the result is built from "No response received.": score 0, no
    corrections, that text as the narrative; nothing is thrown, and
    the [catch] clause does not run (the console stays as it is). *)
Theorem missing_content_falls_back
        (file : FileWithContent.t) (status : nat) (data : Json.value)
        (st : AppState) :
  ok status = true ->
  content_of data = Json.Undefined \/ content_of data = Json.String [] ->
  let v := ValidationResult.make
             (FileWithContent.name file) (FileWithContent.path file)
             (FileWithContent.content file) no_response (Num 0) None false in
  try_block file (Responded status (JsonParsed data)) = inr v /\
  outcome file (Responded status (JsonParsed data)) = v /\
  resume (AwaitJson file (JsonParsed data)) st = (None, push_result v st) /\
  console (push_result v st) = console st /\
  ValidationResults.cleanedResult (ValidationResult.result v) = no_response.
Proof.
  intros O C v.
  assert (handle_data file data = inr v) as H.
  { unfold handle_data. destruct C as [-> | ->]; apply build_result_no_response. }
  unfold outcome. cbn [try_block resume]. rewrite O, H.
  repeat split.
Qed.

Lemma missing_content_falls_back_witness :
  ok 200 = true /\
  content_of (completion []) = Json.String [] /\
  content_of (Json.Object []) = Json.Undefined /\
  outcome file_a (Responded 200 (JsonParsed (completion []))) =
    ValidationResult.make (lit "a.js") (lit "src/a.js") (lit "let a;")
      (lit "No response received.") (Num 0) None false /\
  outcome file_a (Responded 200 (JsonParsed (Json.Object []))) =
    ValidationResult.make (lit "a.js") (lit "src/a.js") (lit "let a;")
      (lit "No response received.") (Num 0) None false.
Proof.
  split; [reflexivity|]. split; [reflexivity|]. split; [reflexivity|]. split.
  - exact (proj1 (proj2 (missing_content_falls_back file_a 200 (completion [])
                           initial eq_refl (or_intror eq_refl)))).
  - exact (proj1 (proj2 (missing_content_falls_back file_a 200 (Json.Object [])
                           initial eq_refl (or_introl eq_refl)))).
Defined.

End FallbackClaims.

(** ** The execution poller *)

Module PollerFacts.
Import App.

(** While the judge answers with a status that is not terminal, the
    one timer is set again and the state stays as it is. *)
Lemma fire_timers_running (waiting rest : list poll_reply) (n : nat)
      (tok : Json.value) (st : AppState) :
  forallb still_running waiting = true ->
  fire_timers (waiting ++ rest) n [mkTimer tok 1000] st =
  fire_timers rest (n + List.length waiting) [mkTimer tok 1000] st.
Proof.
  revert n. induction waiting as [|r waiting IH]; intros n H; cbn [app].
  - now rewrite Nat.add_0_r.
  - cbn [forallb] in H. apply andb_prop in H as [Hr H].
    destruct r as [|d]; [discriminate|]. cbn [still_running] in Hr.
    cbn [fire_timers token checkResult]. rewrite Hr. cbn [app].
    rewrite (IH (S n) H). cbn [List.length]. f_equal. lia.
Qed.

Lemma fire_timers_none (judge : list poll_reply) (n : nat) (st : AppState) :
  fire_timers judge n [] st = (n, [], st).
Proof. now destruct judge. Qed.

Lemma runCode_submitted (data : Json.value) (st : AppState) :
  data <> Json.Undefined -> data <> Json.Null ->
  runCode (SubmitResponded data) st =
  ([mkTimer (Json.get (lit "token") data) 1000],
   setExecutionOutput (lit "Running...") st).
Proof. intros U N. now destruct data. Qed.

End PollerFacts.

Module PollerClaims.
Import PollerFacts App Samples.

(** C7.  A status id of at most 2 is not terminal: [checkResult] sets
    exactly one timer, with the fixed delay, and writes nothing.  A
    status id above 2 is terminal: no timer is set, and the output is
    [stdout] when that is a non-empty string, otherwise "Error: "
    followed by [stderr].  The poller therefore surfaces the terminal
    text after exactly as many further requests as the judge gave
    non-terminal answers, and asks nothing after that; with the
    answers 1, 1 and 3 with "OK", it surfaces "OK" at the third
    request, after two non-terminal ones. *)
Theorem poller_polls_until_terminal
        (tok : Json.value) (d : poll_data) (st : AppState) :
  ((status_id d <= 2)%Z ->
   checkResult tok (PollResponded d) st = ([mkTimer tok 1000], st)) /\
  ((status_id d > 2)%Z ->
   checkResult tok (PollResponded d) st =
     ([], setExecutionOutput (terminal_text d) st) /\
   (forall out, stdout d = Some out -> out <> [] -> terminal_text d = out) /\
   (stdout d = None \/ stdout d = Some [] ->
    terminal_text d =
    lit "Error: " ++ match stderr d with Some e => e | None => lit "null" end)) /\
  (forall data waiting rest,
      data <> Json.Undefined -> data <> Json.Null ->
      forallb still_running waiting = true ->
      (status_id d > 2)%Z ->
      run_and_poll (SubmitResponded data) (waiting ++ PollResponded d :: rest) st =
      (S (List.length waiting), [],
       setExecutionOutput (terminal_text d)
         (setExecutionOutput (lit "Running...") st))) /\
  run_and_poll submitted [queued; queued; accepted] st =
    (3, [], setExecutionOutput (lit "OK")
              (setExecutionOutput (lit "Running...") st)) /\
  run_and_poll submitted [queued; queued] st =
    (2, [mkTimer (Json.String (lit "abc")) 1000],
     setExecutionOutput (lit "Running...") st).
Proof.
  split; [|split; [|split; [|split]]].
  - intros H. cbn [checkResult]. apply Z.leb_le in H. now rewrite H.
  - intros H. assert ((status_id d <=? 2)%Z = false) as L by (apply Z.leb_gt; lia).
    split; [cbn [checkResult]; now rewrite L|]. unfold terminal_text. split.
    + intros out -> N. now destruct out.
    + intros [-> | ->]; reflexivity.
  - intros data waiting rest U N W H.
    assert ((status_id d <=? 2)%Z = false) as L by (apply Z.leb_gt; lia).
    unfold run_and_poll. rewrite runCode_submitted by assumption.
    rewrite fire_timers_running by assumption.
    cbn [fire_timers token checkResult app]. rewrite L.
    rewrite fire_timers_none. cbn [Nat.add]. reflexivity.
  - reflexivity.
  - reflexivity.
Qed.

Lemma poller_polls_until_terminal_witness :
  (status_id (mkPoll 1 None None) <= 2)%Z /\
  (status_id (mkPoll 3 (Some (lit "OK")) None) > 2)%Z /\
  checkResult (Json.String (lit "abc")) queued initial =
    ([mkTimer (Json.String (lit "abc")) 1000], initial) /\
  checkResult (Json.String (lit "abc")) accepted initial =
    ([], setExecutionOutput (lit "OK") initial) /\
  run_and_poll submitted ([queued; queued] ++ [accepted]) initial =
    (3, [], setExecutionOutput (lit "OK")
              (setExecutionOutput (lit "Running...") initial)).
Proof.
  assert ((status_id (mkPoll 1 None None) <= 2)%Z) as L by (cbn; lia).
  assert ((status_id (mkPoll 3 (Some (lit "OK")) None) > 2)%Z) as G by (cbn; lia).
  split; [exact L|]. split; [exact G|]. split; [|split].
  - exact (proj1 (poller_polls_until_terminal (Json.String (lit "abc"))
                    (mkPoll 1 None None) initial) L).
  - exact (proj1 (proj1 (proj2 (poller_polls_until_terminal
                                  (Json.String (lit "abc"))
                                  (mkPoll 3 (Some (lit "OK")) None) initial)) G)).
  - refine (proj1 (proj2 (proj2 (poller_polls_until_terminal
                                   (Json.String (lit "abc"))
                                   (mkPoll 3 (Some (lit "OK")) None) initial)))
              _ [queued; queued] [] _ _ eq_refl G); discriminate.
Defined.

(** C9.  The text "Execution failed." is written by [runCode]'s
    [catch] clause, which runs only when the submission fails (the
    request is rejected, or its response carries no data to read the
    token from): once the submission has succeeded the clause never
    runs, whatever the judge answers afterwards; and when a status
    request fails, no timer is set again and the output stays
    "Running...". *)
Theorem poll_failure_is_not_caught
        (data : Json.value) (judge : list poll_reply) (st : AppState) :
  (forall e,
      run_and_poll (SubmitRejected e) judge st =
      (0, [],
       setExecutionOutput (lit "Execution failed.")
         (console_error (lit "Error running code:")
            (setExecutionOutput (lit "Running...") st)))) /\
  (data = Json.Undefined \/ data = Json.Null ->
   run_and_poll (SubmitResponded data) judge st =
   (0, [],
    setExecutionOutput (lit "Execution failed.")
      (console_error (lit "Error running code:")
         (setExecutionOutput (lit "Running...") st)))) /\
  (data <> Json.Undefined -> data <> Json.Null ->
   console (snd (run_and_poll (SubmitResponded data) judge st)) = console st) /\
  (forall waiting rest,
      data <> Json.Undefined -> data <> Json.Null ->
      forallb still_running waiting = true ->
      run_and_poll (SubmitResponded data) (waiting ++ PollRejected :: rest) st =
      (S (List.length waiting), [],
       setExecutionOutput (lit "Running...") st)).
Proof.
  split; [|split; [|split]].
  - intros e. unfold run_and_poll. cbn [runCode]. apply fire_timers_none.
  - intros [-> | ->]; unfold run_and_poll; cbn [runCode]; apply fire_timers_none.
  - intros U N. unfold run_and_poll. rewrite runCode_submitted by assumption.
    assert (forall n timers st0,
               console (snd (fire_timers judge n timers st0)) = console st0) as G.
    { induction judge as [|r judge IH]; intros n timers st0; [reflexivity|].
      destruct timers as [|t timers]; [reflexivity|].
      cbn [fire_timers]. destruct r as [|d]; cbn [checkResult].
      - apply IH.
      - destruct (status_id d <=? 2)%Z; rewrite IH; reflexivity. }
    now rewrite G.
  - intros waiting rest U N W.
    unfold run_and_poll. rewrite runCode_submitted by assumption.
    rewrite fire_timers_running by assumption.
    cbn [fire_timers token checkResult app].
    rewrite fire_timers_none. cbn [Nat.add]. reflexivity.
Qed.

Lemma poll_failure_is_not_caught_witness :
  run_and_poll submitted ([queued] ++ PollRejected :: [accepted]) initial =
    (2, [], setExecutionOutput (lit "Running...") initial) /\
  console (snd (run_and_poll submitted [queued; PollRejected; accepted] initial))
    = console initial.
Proof.
  split.
  - refine (proj2 (proj2 (proj2 (poll_failure_is_not_caught
                            (Json.Object [(lit "token", Json.String (lit "abc"))])
                            [] initial)))
              [queued] [accepted] _ _ eq_refl); discriminate.
  - refine (proj1 (proj2 (proj2 (poll_failure_is_not_caught
                            (Json.Object [(lit "token", Json.String (lit "abc"))])
                            [queued; PollRejected; accepted] initial))) _ _);
      discriminate.
Defined.

End PollerClaims.

(** ** More about the batch *)

Module BatchMoreFacts.
Import Spec BatchFacts App.

(** Everything a resumed call does to the state. *)
Lemma resume_effects (t : task) (st : AppState) (t' : option task)
      (st' : AppState) :
  resume t st = (t', st') ->
  streamingState st' = streamingState st /\
  match t' with
  | None => console st' = console st ++ pending_log t
  | Some u => console st' = console st /\ pending_log u = pending_log t
  end.
Proof.
  destruct t as [file [e|status b]|file [e|data]]; cbn [resume].
  - intros H. injection H as <- <-. split; [reflexivity|].
    cbn. now rewrite app_nil_r || reflexivity.
  - unfold pending_log, try_block.
    destruct (ok status) eqn:O; intros H; injection H as <- <-.
    + split; [reflexivity|]. split; reflexivity.
    + split; reflexivity.
  - intros H. injection H as <- <-. split; reflexivity.
  - unfold pending_log, try_block. cbn [ok Nat.leb andb].
    destruct (handle_data file data) as [e|v]; intros H;
      injection H as <- <-; split; try reflexivity.
    cbn. now rewrite app_nil_r.
Qed.

(** One call taken out of the pool and run to its end. *)
Lemma run_one (before : list task) (t : task) (after : list task)
      (st : AppState) :
  exists st1,
    steps (before ++ t :: after, st) (before ++ after, st1) /\
    validationResults st1 = validationResults st ++ [pending_outcome t].
Proof.
  destruct (resume t st) as [[u|] st1] eqn:R1.
  - destruct (resume_outcome _ _ _ _ R1) as [_ [V1 O1]].
    destruct (resume u st1) as [o st2] eqn:R2.
    assert (o = None) as ->.
    { destruct t as [file [e|status b]|file [e|data]]; cbn [resume] in R1.
      - discriminate.
      - destruct (ok status); [|discriminate]. injection R1 as <- <-.
        cbn [resume] in R2. destruct b as [e|data].
        + now injection R2 as <- _.
        + destruct (handle_data file data); now injection R2 as <- _.
      - discriminate.
      - destruct (handle_data file data); discriminate. }
    destruct (resume_outcome _ _ _ _ R2) as [_ V2].
    exists st2. split.
    + eapply steps_next; [exact (step_resume before t after st _ _ R1)|].
      eapply steps_next; [exact (step_resume before u after st1 _ _ R2)|].
      apply steps_refl.
    + now rewrite V2, V1, O1.
  - destruct (resume_outcome _ _ _ _ R1) as [_ V1].
    exists st1. split; [|assumption].
    eapply steps_next; [exact (step_resume before t after st _ _ R1)|].
    apply steps_refl.
Qed.

(** The calls can finish in any order. *)
Lemma steps_in_any_order (l : list ValidationResult.t) :
  forall (pool : list task) (st : AppState),
    Permutation l (map pending_outcome pool) ->
    exists st',
      steps (pool, st) ([], st') /\
      validationResults st' = validationResults st ++ l.
Proof.
  induction l as [|x l IH]; intros pool st P.
  - apply Permutation_nil in P. destruct pool; [|discriminate].
    exists st. split; [apply steps_refl | now rewrite app_nil_r].
  - assert (In x (map pending_outcome pool)) as Hx
        by (apply (Permutation_in _ P); now left).
    apply in_map_iff in Hx as (t & <- & Ht).
    apply in_split in Ht as (before & after & ->).
    destruct (run_one before t after st) as (st1 & S1 & V1).
    rewrite map_app in P. cbn [map] in P.
    apply Permutation_cons_app_inv in P. rewrite <- map_app in P.
    destruct (IH _ st1 P) as (st' & S' & V').
    exists st'. split; [eapply steps_trans; eassumption|].
    rewrite V', V1, <- app_assoc. reflexivity.
Qed.

Lemma step_console (c1 c2 : list task * AppState) :
  step c1 c2 ->
  streamingState (snd c2) = streamingState (snd c1) /\
  exists l,
    console (snd c2) = console (snd c1) ++ l /\
    Permutation (l ++ flat_map pending_log (fst c2))
                (flat_map pending_log (fst c1)).
Proof.
  intros [before t after st t' st' R]. cbn [fst snd].
  destruct (resume_effects _ _ _ _ R) as [S C]. split; [assumption|].
  destruct t' as [u|]; cbn [app]; rewrite !flat_map_app; cbn [flat_map].
  - destruct C as [C L]. exists []. rewrite C, app_nil_r, L. split; reflexivity.
  - exists (pending_log t). split; [assumption|].
    rewrite app_assoc.
    rewrite (Permutation_app_comm (pending_log t)).
    now rewrite <- app_assoc.
Qed.

Lemma steps_console (c1 c2 : list task * AppState) :
  steps c1 c2 ->
  streamingState (snd c2) = streamingState (snd c1) /\
  exists l,
    console (snd c2) = console (snd c1) ++ l /\
    Permutation (l ++ flat_map pending_log (fst c2))
                (flat_map pending_log (fst c1)).
Proof.
  induction 1 as [c|c1 c2 c3 S _ [IS (l2 & C2 & P2)]].
  - split; [reflexivity|]. exists []. now rewrite app_nil_r.
  - destruct (step_console _ _ S) as [S1 (l1 & C1 & P1)]. split.
    + now rewrite IS.
    + exists (l1 ++ l2). split.
      * now rewrite C2, C1, app_assoc.
      * rewrite <- P1, <- P2, app_assoc. reflexivity.
Qed.

Lemma start_all_more (net : nat -> reply) (fs : list FileWithContent.t)
      (i : nat) (st : AppState) :
  console (snd (start_all net i fs st)) = console st /\
  flat_map pending_log (fst (start_all net i fs st)) = error_logs net i fs /\
  List.length (fst (start_all net i fs st)) = List.length fs /\
  streamingState (snd (start_all net i fs st)) =
  match rev fs with
  | [] => streamingState st
  | f :: _ =>
      StreamingState.make (StreamingState.isAnalyzing (streamingState st))
        (FileWithContent.path f) (lit "Analyzing code...")
  end.
Proof.
  revert i st. induction fs as [|f fs IH]; intros i st; cbn [start_all].
  - repeat split.
  - unfold processFile_start.
    destruct (start_all net (S i) fs _) as [ts st2] eqn:E.
    specialize (IH (S i)
      (setStreamingState
         (fun prev =>
            StreamingState.make (StreamingState.isAnalyzing prev)
              (FileWithContent.path f) (lit "Analyzing code...")) st)).
    rewrite E in IH. cbn [fst snd] in *. destruct IH as (C & L & N & S).
    split; [assumption|]. split; [|split].
    + cbn [flat_map pending_log error_logs]. rewrite L.
      now destruct (try_block f (net i)).
    + cbn [List.length]. now rewrite N.
    + rewrite S. cbn [rev]. destruct (rev fs) as [|g gs]; reflexivity.
Qed.

End BatchMoreFacts.

Module BatchExtras.
Import Spec BatchFacts BatchMoreFacts BatchClaims App Samples.

(** X1.  The results are stored in the order in which the calls
    finish, and the calls can finish in any order: every arrangement of
    the per-file results is the final list of some run of the batch. *)
Theorem results_in_any_order
        (net : nat -> reply) (st : AppState) (l : list ValidationResult.t) :
  files st <> [] ->
  Permutation l (outcomes net 0 (files st)) ->
  exists st', validateCode net st st' /\ validationResults st' = l.
Proof.
  intros N P.
  pose proof (start_all_spec net (files st) 0
                (setValidationResults (fun _ => [])
                   (setStreamingState (fun _ => analyzing) st)))
    as (_ & V0 & O0).
  pose proof (validateCode_batch net st) as B.
  destruct (start_all net 0 (files st) _) as [ts st0]. cbn [fst snd] in *.
  rewrite <- O0 in P.
  destruct (steps_in_any_order l ts st0 P) as (st' & S & V).
  exists (setStreamingState (fun _ => idle) st'). split.
  - apply B; [|assumption]. destruct (files st); [congruence | discriminate].
  - cbn [setStreamingState validationResults]. rewrite V, V0. reflexivity.
Qed.

Lemma results_in_any_order_witness :
  files initial <> [] /\
  Permutation
    [outcome file_c (second_rejects 2); outcome file_a (second_rejects 0);
     outcome file_b (second_rejects 1)]
    (outcomes second_rejects 0 (files initial)) /\
  exists st',
    validateCode second_rejects initial st' /\
    validationResults st' =
    [outcome file_c (second_rejects 2); outcome file_a (second_rejects 0);
     outcome file_b (second_rejects 1)].
Proof.
  assert (files initial <> []) as N by discriminate.
  assert (Permutation
            [outcome file_c (second_rejects 2); outcome file_a (second_rejects 0);
             outcome file_b (second_rejects 1)]
            (outcomes second_rejects 0 (files initial))) as P.
  { cbn [outcomes files initial].
    apply Permutation_sym.
    apply (Permutation_cons_app [_] [_]). apply perm_swap. }
  split; [exact N|]. split; [exact P|].
  exact (results_in_any_order second_rejects initial _ N P).
Defined.

(** X2.  While a batch is under way the progress indicator does not
    follow the calls: from the moment the requests are sent to the
    moment the last call finishes it says "Analyzing code..." for the
    last file of the list; once the batch is over it is cleared. *)
Theorem progress_names_last_file
        (net : nat -> reply) (st : AppState)
        (earlier : list FileWithContent.t) (last_file : FileWithContent.t) :
  files st = earlier ++ [last_file] ->
  (forall ts st',
      reachable net st (ts, st') ->
      streamingState st' =
      StreamingState.make true (FileWithContent.path last_file)
        (lit "Analyzing code...")) /\
  (forall st', validateCode net st st' -> streamingState st' = idle).
Proof.
  intros F. split.
  - intros ts st' R. unfold reachable in R.
    apply steps_console in R. destruct R as [S _]. cbn [snd] in S.
    rewrite S.
    destruct (start_all_more net (files st) 0
                (setValidationResults (fun _ => [])
                   (setStreamingState (fun _ => analyzing) st)))
      as (_ & _ & _ & ->).
    rewrite F, rev_app_distr. reflexivity.
  - intros st' V. destruct V as [st0 E|st0 st1 _ _]; [|reflexivity].
    rewrite F, length_app in E. cbn in E. lia.
Qed.

Lemma progress_names_last_file_witness :
  files initial = [file_a; file_b] ++ [file_c] /\
  reachable second_rejects initial
    (start_all second_rejects 0 (files initial)
       (setValidationResults (fun _ => [])
          (setStreamingState (fun _ => analyzing) initial))) /\
  streamingState
    (snd (start_all second_rejects 0 (files initial)
            (setValidationResults (fun _ => [])
               (setStreamingState (fun _ => analyzing) initial)))) =
  StreamingState.make true (lit "src/c.ts") (lit "Analyzing code...") /\
  streamingState (finished second_rejects initial) = idle.
Proof.
  assert (reachable second_rejects initial
            (start_all second_rejects 0 (files initial)
               (setValidationResults (fun _ => [])
                  (setStreamingState (fun _ => analyzing) initial)))) as R
      by apply steps_refl.
  pose proof (progress_names_last_file second_rejects initial
                [file_a; file_b] file_c eq_refl) as [A B].
  split; [reflexivity|]. split; [exact R|]. split.
  - exact (A _ _ R).
  - exact (B _ (finished_run second_rejects initial ltac:(discriminate))).
Defined.

(** X3.  A batch writes to the console one line for each file whose
    [try] block throws, naming the file's path, and nothing else; what
    the console held before stays in front. *)
Theorem one_console_line_per_failure
        (net : nat -> reply) (st st' : AppState) :
  validateCode net st st' ->
  files st <> [] ->
  exists l,
    console st' = console st ++ l /\
    Permutation l (error_logs net 0 (files st)).
Proof.
  intros V N. destruct V as [st0 E|st0 st1 _ S].
  - destruct (files st0); [congruence | discriminate].
  - apply steps_console in S. destruct S as [_ (l & C & P)].
    cbn [fst snd flat_map] in *. rewrite app_nil_r in P.
    destruct (start_all_more net (files st0) 0
                (setValidationResults (fun _ => [])
                   (setStreamingState (fun _ => analyzing) st0)))
      as (C0 & L0 & _ & _).
    exists l. split.
    + cbn [setStreamingState console]. rewrite C, C0. reflexivity.
    + now rewrite P, L0.
Qed.

Lemma one_console_line_per_failure_witness :
  validateCode second_rejects initial (finished second_rejects initial) /\
  files initial <> [] /\
  exists l,
    console (finished second_rejects initial) = console initial ++ l /\
    Permutation l [lit "Error validating src/b.py:"].
Proof.
  assert (files initial <> []) as N by discriminate.
  pose proof (finished_run second_rejects initial N) as V.
  split; [exact V|]. split; [exact N|].
  exact (one_console_line_per_failure second_rejects initial _ V N).
Defined.

(** X4.  At every moment of a batch each file is accounted for exactly
    once: its result is stored, or its call is still pending and is
    going to store it. *)
Theorem every_file_accounted_for
        (net : nat -> reply) (st : AppState)
        (ts : list task) (st' : AppState) :
  reachable net st (ts, st') ->
  Permutation (validationResults st' ++ map pending_outcome ts)
              (outcomes net 0 (files st)) /\
  List.length (validationResults st') + List.length ts =
  List.length (files st).
Proof.
  intros R. unfold reachable in R. apply steps_invariant in R.
  destruct R as [_ P]. cbn [fst snd] in P.
  destruct (start_all_spec net (files st) 0
              (setValidationResults (fun _ => [])
                 (setStreamingState (fun _ => analyzing) st)))
    as (_ & V0 & O0).
  rewrite V0, O0 in P. cbn [setValidationResults validationResults app] in P.
  split; [assumption|].
  apply Permutation_length in P.
  rewrite length_app, length_map, outcomes_length in P. exact P.
Qed.

Lemma every_file_accounted_for_witness :
  exists ts st',
    reachable second_rejects initial (ts, st') /\
    validationResults st' = [outcome file_b (second_rejects 1)] /\
    List.length (validationResults st') + List.length ts = 3.
Proof.
  pose (c := start_all second_rejects 0 (files initial)
               (setValidationResults (fun _ => [])
                  (setStreamingState (fun _ => analyzing) initial))).
  destruct (run_one [AwaitFetch file_a (second_rejects 0)]
                    (AwaitFetch file_b (second_rejects 1))
                    [AwaitFetch file_c (second_rejects 2)] (snd c))
    as (st1 & S & V).
  exists ([AwaitFetch file_a (second_rejects 0)] ++
          [AwaitFetch file_c (second_rejects 2)]), st1.
  assert (reachable second_rejects initial
            ([AwaitFetch file_a (second_rejects 0)] ++
             [AwaitFetch file_c (second_rejects 2)], st1)) as R by exact S.
  split; [exact R|]. split; [exact V|].
  exact (proj2 (every_file_accounted_for second_rejects initial _ _ R)).
Defined.

End BatchExtras.

(** ** More about the stored result *)

Module ResultFacts.
Import Spec SpecFacts TrimFacts PlainFacts CorrectedCodeFacts App.

(** A result stored by the [try] block is built from a text. *)
Lemma try_block_built (file : FileWithContent.t) (r : reply)
      (v : ValidationResult.t) :
  try_block file r = inr v -> exists raw, build_result file raw = inr v.
Proof.
  destruct r as [e|status [e|data]]; cbn [try_block];
    try discriminate; destruct (ok status); try discriminate.
  unfold handle_data.
  destruct (Json.or_else _ _) as [| |b|n|s|a|o]; try discriminate.
  intros H. now exists s.
Qed.

Lemma trim_idempotent (s : str) : trim (trim s) = trim s.
Proof.
  destruct (trim_split s) as (ws1 & ws2 & B1 & B2 & E).
  rewrite E at 2. now rewrite trim_blank_around.
Qed.

(** The text in front of the first occurrence does not contain the
    needle. *)
Lemma cut_before_clean (n s a b : str) :
  n <> [] -> cut n s = Some (a, b) -> ~ occurs n a.
Proof.
  intros Hn C (x & y & E).
  pose proof (cut_Some _ _ _ _ C) as Hs.
  assert (s = x ++ n ++ (y ++ n ++ b)) as Hs'
      by (rewrite Hs, E, <- !app_assoc; reflexivity).
  pose proof (cut_first _ _ _ _ _ _ C Hs') as L.
  rewrite E, !length_app in L.
  destruct n; [congruence|]. simpl in L. lia.
Qed.

Lemma occurs_trim (n s : str) : occurs n (trim s) -> occurs n s.
Proof.
  intros H. destruct (trim_split s) as (ws1 & ws2 & _ & _ & E).
  rewrite E. now apply occurs_inside.
Qed.

End ResultFacts.

Module ResultExtras.
Import Spec ResultFacts CorrectedCodeFacts App Samples.

(** X5.  What the body's [content] leads to: a falsy value of any kind
    (undefined, null, false, 0, NaN, the empty string), and so any body
    that is not an object, gives the result built from "No response
    received."; a non-empty string gives the result built from it; any
    other truthy value (true, a number, an array, an object) makes the
    call of [match] throw, and the file gets the error result. *)
Theorem content_kinds (file : FileWithContent.t) (data : Json.value) :
  (Json.truthy (content_of data) = false ->
   handle_data file data = build_result file no_response) /\
  ((forall props, data <> Json.Object props) ->
   handle_data file data = build_result file no_response) /\
  (forall s,
      content_of data = Json.String s -> s <> [] ->
      handle_data file data = build_result file s) /\
  (Json.truthy (content_of data) = true ->
   (forall s, content_of data <> Json.String s) ->
   handle_data file data = inl (ErrorObject match_not_a_function) /\
   forall status,
     ok status = true ->
     outcome file (Responded status (JsonParsed data)) =
     error_result file (ErrorObject match_not_a_function)).
Proof.
  assert (Json.truthy (content_of data) = true ->
          (forall s, content_of data <> Json.String s) ->
          handle_data file data = inl (ErrorObject match_not_a_function)) as K.
  { unfold handle_data, Json.or_else. intros T N. rewrite T.
    destruct (content_of data) as [| |b|n|s|a|o]; try reflexivity.
    now contradiction (N s). }
  split; [|split; [|split; [|split]]].
  - unfold handle_data, Json.or_else. intros ->. reflexivity.
  - intros H. destruct data; try reflexivity. now contradiction (H props).
  - unfold handle_data, Json.or_else. intros s -> N.
    destruct s; [congruence | reflexivity].
  - now apply K.
  - intros status O. unfold outcome. cbn [try_block].
    now rewrite O, K.
Qed.

Lemma content_kinds_witness :
  (Json.truthy (content_of (completion [])) = false /\
   handle_data file_a (completion []) = build_result file_a no_response) /\
  ((forall props, Json.Array [] <> Json.Object props) /\
   handle_data file_a (Json.Array []) = build_result file_a no_response) /\
  (content_of (completion (lit "ok")) = Json.String (lit "ok") /\
   handle_data file_a (completion (lit "ok")) = build_result file_a (lit "ok")) /\
  (Json.truthy (content_of (Json.Object [(lit "choices", Json.String (lit "x"))]))
   = false) /\
  outcome file_a (Responded 200 (JsonParsed numeric_completion))
  = error_result file_a (ErrorObject match_not_a_function).
Proof.
  split; [|split; [|split; [|split]]].
  - split; [reflexivity|].
    exact (proj1 (content_kinds file_a (completion [])) eq_refl).
  - assert (forall props, Json.Array [] <> Json.Object props) as H
        by discriminate.
    split; [exact H|].
    exact (proj1 (proj2 (content_kinds file_a (Json.Array []))) H).
  - split; [reflexivity|].
    refine (proj1 (proj2 (proj2 (content_kinds file_a (completion (lit "ok")))))
              (lit "ok") eq_refl _). discriminate.
  - reflexivity.
  - refine (proj2 (proj2 (proj2 (proj2 (content_kinds file_a numeric_completion)))
                     eq_refl _)
              200 eq_refl).
    discriminate.
Defined.


(** X7.  The texts that the [try] block stores are clean: the
    narrative has no white space at its ends, and the corrected code
    has none either and contains no fence. *)
Theorem stored_texts_are_clean
        (file : FileWithContent.t) (r : reply) (v : ValidationResult.t) :
  try_block file r = inr v ->
  trim (ValidationResult.result v) = ValidationResult.result v /\
  forall c,
    ValidationResult.correctedCode v = Some c ->
    trim c = c /\ ~ occurs fence c.
Proof.
  intros T. destruct (try_block_built _ _ _ T) as (raw & B).
  rewrite build_result_block in B. injection B as <-.
  cbn [ValidationResult.result ValidationResult.correctedCode].
  split; [apply trim_idempotent|]. intros c.
  unfold first_fenced_block.
  destruct (cut fence raw) as [[pre opened]|]; [|discriminate].
  destruct (cut fence (drop_language_tag opened)) as [[inner post]|] eqn:C;
    [|discriminate].
  intros H. injection H as <-. split; [apply trim_idempotent|].
  intros O. apply occurs_trim in O.
  apply (cut_before_clean fence _ _ _ ltac:(discriminate) C O).
Qed.

Lemma stored_texts_are_clean_witness :
  exists v,
    try_block file_a (Responded 200 (JsonParsed (completion fenced_text)))
    = inr v /\
    ValidationResult.result v = lit "Use const.  done" /\
    ValidationResult.correctedCode v = Some (lit "const a = 1;") /\
    trim (ValidationResult.result v) = ValidationResult.result v /\
    trim (lit "const a = 1;") = lit "const a = 1;" /\
    ~ occurs fence (lit "const a = 1;").
Proof.
  eexists. split; [reflexivity|]. split; [reflexivity|]. split; [reflexivity|].
  pose proof (stored_texts_are_clean file_a
                (Responded 200 (JsonParsed (completion fenced_text))) _ eq_refl)
    as [A B].
  split; [exact A|]. exact (B _ eq_refl).
Defined.

End ResultExtras.

(** ** File selection and the uploader *)

Module SelectionFacts.
Import PlainFacts App.

Lemma split_nonempty (sep : ascii) (s : str) : split sep s <> [].
Proof.
  destruct (split_head sep s) as (piece & pieces & b & E & _).
  rewrite E. discriminate.
Qed.

Lemma split_no_sep (sep : ascii) (s : str) : ~ In sep s -> split sep s = [s].
Proof.
  induction s as [|c s IH]; intros H; cbn [split]; [reflexivity|].
  destruct (Ascii.eqb c sep) eqn:E.
  - apply Ascii.eqb_eq in E. subst c. exfalso. apply H. now left.
  - rewrite IH; [reflexivity|]. intros I. apply H. now right.
Qed.

(** Splitting at a separator splits both sides. *)
Lemma split_app_sep (sep : ascii) (a b : str) :
  split sep (a ++ sep :: b) = split sep a ++ split sep b.
Proof.
  induction a as [|c a IH]; cbn [app split].
  - now rewrite Ascii.eqb_refl.
  - destruct (Ascii.eqb c sep); rewrite IH; [reflexivity|].
    destruct (split_head sep a) as (piece & pieces & x & E & _).
    now rewrite E.
Qed.

Lemma pop_app (l1 l2 : list str) : l2 <> [] -> pop (l1 ++ l2) = pop l2.
Proof.
  intros H. unfold pop. rewrite rev_app_distr.
  destruct (rev l2) as [|x r] eqn:E; [|reflexivity].
  apply (f_equal (@rev str)) in E. rewrite rev_involutive in E.
  now contradiction H.
Qed.

Lemma last_sep (sep : ascii) (s : str) :
  In sep s -> exists stem e, s = stem ++ sep :: e /\ ~ In sep e.
Proof.
  induction s as [|c s IH]; intros H; [contradiction|].
  destruct (in_dec ascii_dec sep s) as [I|I].
  - destruct (IH I) as (stem & e & -> & N). now exists (c :: stem), e.
  - destruct H as [->|H]; [|contradiction]. now exists [], s.
Qed.

Lemma extension_no_dot (name : str) :
  ~ In "."%char name -> extension_of name = name.
Proof.
  intros H. unfold extension_of. rewrite split_no_sep by assumption.
  now destruct name.
Qed.

Lemma extension_after_dot (stem e : str) :
  ~ In "."%char e -> extension_of (stem ++ "."%char :: e) = e.
Proof.
  intros H. unfold extension_of.
  rewrite split_app_sep, pop_app by apply split_nonempty.
  rewrite split_no_sep by assumption. now destruct e.
Qed.

Lemma filter_index_from (A : Type) (l : list A) (k i : nat) :
  map snd
    (filter (fun p => negb (Nat.eqb (fst p) (k + i)))
       (combine (seq k (List.length l)) l)) =
  firstn i l ++ skipn (S i) l.
Proof.
  revert k i. induction l as [|x l IH]; intros k i.
  - now destruct i.
  - cbn [List.length seq combine filter fst].
    destruct i as [|i].
    + rewrite Nat.add_0_r, Nat.eqb_refl. cbn [negb firstn skipn app].
      (* nothing else is at index [k] *)
      clear IH. assert (forall m, k < m ->
                  map snd (filter (fun p => negb (Nat.eqb (fst p) k))
                             (combine (seq m (List.length l)) l)) = l) as G.
      { induction l as [|y l IHl]; intros m Hm; [reflexivity|].
        cbn [List.length seq combine filter fst].
        assert (Nat.eqb m k = false) as -> by (apply Nat.eqb_neq; lia).
        cbn [negb map snd]. f_equal. apply IHl. lia. }
      apply G. lia.
    + assert (Nat.eqb k (k + S i) = false) as -> by (apply Nat.eqb_neq; lia).
      cbn [negb map snd firstn app]. f_equal.
      replace (k + S i) with (S k + i) by lia. apply IH.
Qed.

(** Filtering out one index removes the element at that index. *)
Lemma filter_index_spec (A : Type) (i : nat) (l : list A) :
  filter_index i l = firstn i l ++ skipn (S i) l.
Proof. apply (filter_index_from A l 0 i). Qed.

Lemma map_file_entry (fs : list File.t) :
  map FileUploader.file (map FileUploader.entry fs) = fs.
Proof.
  induction fs as [|f fs IH]; [reflexivity|]. cbn [map]. now rewrite IH.
Qed.

Lemma outcomes_read (net : nat -> reply) (selected : list File.t) (i : nat) :
  map (fun v => (ValidationResult.fileName v, ValidationResult.code v))
      (outcomes net i (map read_file selected)) =
  map (fun f => (File.name f, File.text f)) selected.
Proof.
  revert i. induction selected as [|f fs IH]; intros i; [reflexivity|].
  cbn [map outcomes]. rewrite IH.
  destruct (BatchClaims.outcome_fields (read_file f) (net i)) as (N & _ & C).
  now rewrite N, C.
Qed.

End SelectionFacts.

Module SelectionExtras.
Import Spec SelectionFacts BatchFacts App.

(** X8.  The extension recorded for a file is the part of its name
    after the last dot; a name without a dot is its own extension, a
    name that ends in a dot has the empty one; the extension never
    contains a dot. *)
Theorem extension_is_after_last_dot (name : str) :
  (~ In "."%char name -> extension_of name = name) /\
  (forall stem e,
      name = stem ++ "."%char :: e -> ~ In "."%char e ->
      extension_of name = e) /\
  ~ In "."%char (extension_of name).
Proof.
  split; [apply extension_no_dot|]. split.
  - intros stem e -> H. now apply extension_after_dot.
  - destruct (in_dec ascii_dec "."%char name) as [I|I].
    + destruct (last_sep _ _ I) as (stem & e & -> & N).
      now rewrite extension_after_dot.
    + now rewrite extension_no_dot.
Qed.

Lemma extension_is_after_last_dot_witness :
  (~ In "."%char (lit "Makefile") /\
   extension_of (lit "Makefile") = lit "Makefile") /\
  (lit "archive.tar.gz" = lit "archive.tar" ++ "."%char :: lit "gz" /\
   ~ In "."%char (lit "gz") /\
   extension_of (lit "archive.tar.gz") = lit "gz").
Proof.
  assert (~ In "."%char (lit "Makefile")) as A
      by (cbn; intros H; repeat destruct H as [H|H]; try discriminate H; exact H).
  assert (~ In "."%char (lit "gz")) as B
      by (cbn; intros H; repeat destruct H as [H|H]; try discriminate H; exact H).
  split; [split; [exact A|]|split; [reflexivity|split; [exact B|]]].
  - exact (proj1 (extension_is_after_last_dot (lit "Makefile")) A).
  - exact (proj1 (proj2 (extension_is_after_last_dot (lit "archive.tar.gz")))
             (lit "archive.tar") (lit "gz") eq_refl B).
Defined.

(** X9.  Selecting files and then validating gives results for
    exactly the selected files: the results carry, in some order, the
    names and texts of the selected files, and nothing of what was
    shown before the selection. *)
Theorem selected_files_get_results
        (net : nat -> reply) (selected : list File.t) (st st' : AppState) :
  selected <> [] ->
  validateCode net (handleFilesSelected selected st) st' ->
  Permutation
    (map (fun v => (ValidationResult.fileName v, ValidationResult.code v))
         (validationResults st'))
    (map (fun f => (File.name f, File.text f)) selected).
Proof.
  intros N V. destruct (validateCode_results _ _ _ V) as [_ P].
  cbn [handleFilesSelected setValidationResults setFiles files] in P.
  assert (map read_file selected <> []) as N' by (now destruct selected).
  rewrite (Permutation_map _ (P N')). now rewrite outcomes_read.
Qed.

Lemma selected_files_get_results_witness :
  Samples.picked <> [] /\
  exists st',
    validateCode Samples.all_answer
      (handleFilesSelected Samples.picked Samples.initial) st' /\
    Permutation
      (map (fun v => (ValidationResult.fileName v, ValidationResult.code v))
           (validationResults st'))
      [(lit "a.js", lit "let a;"); (lit "b.py", lit "b = 1")].
Proof.
  split; [discriminate|].
  exists (Samples.finished Samples.all_answer
            (handleFilesSelected Samples.picked Samples.initial)).
  assert (validateCode Samples.all_answer
            (handleFilesSelected Samples.picked Samples.initial)
            (Samples.finished Samples.all_answer
               (handleFilesSelected Samples.picked Samples.initial))) as V
      by (apply BatchClaims.finished_run; discriminate).
  split; [exact V|].
  exact (selected_files_get_results Samples.all_answer Samples.picked
           Samples.initial _ ltac:(discriminate) V).
Defined.

End SelectionExtras.

Module UploaderExtras.
Import Spec SelectionFacts App FileUploader.

(** X10.  A drop adds the dropped files to the uploader's list but
    hands the parent the dropped files only: the parent's files take
    the place of the earlier ones, its results are discarded, and the
    two lists agree after the drop exactly when the uploader listed
    nothing before. *)
Theorem drop_replaces_parent_files
        (acceptedFiles : list File.t) (c : Instance) (st : AppState) :
  uploadedFiles (fst (onDrop handleFilesSelected acceptedFiles c st)) =
    uploadedFiles c ++ map entry acceptedFiles /\
  files (snd (onDrop handleFilesSelected acceptedFiles c st)) =
    map read_file acceptedFiles /\
  validationResults (snd (onDrop handleFilesSelected acceptedFiles c st)) = [] /\
  (in_sync (fst (onDrop handleFilesSelected acceptedFiles c st))
           (snd (onDrop handleFilesSelected acceptedFiles c st)) <->
   uploadedFiles c = []).
Proof.
  split; [reflexivity|]. split; [reflexivity|]. split; [reflexivity|].
  unfold in_sync. cbn [onDrop fst snd uploadedFiles handleFilesSelected
                       setValidationResults setFiles files].
  rewrite map_app, map_file_entry, map_app. split.
  - intros H. apply (f_equal (@List.length FileWithContent.t)) in H.
    rewrite length_app, !length_map in H.
    destruct (uploadedFiles c); [reflexivity | simpl in H; lia].
  - intros ->. reflexivity.
Qed.

Lemma drop_replaces_parent_files_witness :
  uploadedFiles Samples.listing <> [] /\
  ~ in_sync (fst (onDrop handleFilesSelected Samples.picked Samples.listing
                    Samples.initial))
            (snd (onDrop handleFilesSelected Samples.picked Samples.listing
                    Samples.initial)) /\
  List.length
    (uploadedFiles (fst (onDrop handleFilesSelected Samples.picked
                           Samples.listing Samples.initial))) = 4 /\
  List.length
    (files (snd (onDrop handleFilesSelected Samples.picked
                   Samples.listing Samples.initial))) = 2.
Proof.
  assert (uploadedFiles Samples.listing <> []) as N by discriminate.
  split; [exact N|]. split; [|split; reflexivity].
  intros S. apply N.
  exact (proj1 (proj2 (proj2 (proj2
           (drop_replaces_parent_files Samples.picked Samples.listing
              Samples.initial)))) S).
Defined.

(** X11.  Removing a file takes exactly the entry at the given index
    out of the uploader's list (an index past the end removes
    nothing) and hands the parent the whole remaining list, so the two
    agree again; the parent's results are discarded.  Clearing empties
    both. *)
Theorem remove_resynchronises (index : nat) (c : Instance) (st : AppState) :
  uploadedFiles (fst (removeFile handleFilesSelected index c st)) =
    firstn index (uploadedFiles c) ++ skipn (S index) (uploadedFiles c) /\
  (List.length (uploadedFiles c) <= index ->
   uploadedFiles (fst (removeFile handleFilesSelected index c st)) =
   uploadedFiles c) /\
  (index < List.length (uploadedFiles c) ->
   S (List.length (uploadedFiles (fst (removeFile handleFilesSelected index c st))))
   = List.length (uploadedFiles c)) /\
  in_sync (fst (removeFile handleFilesSelected index c st))
          (snd (removeFile handleFilesSelected index c st)) /\
  validationResults (snd (removeFile handleFilesSelected index c st)) = [] /\
  in_sync (fst (clearAllFiles handleFilesSelected c st))
          (snd (clearAllFiles handleFilesSelected c st)) /\
  uploadedFiles (fst (clearAllFiles handleFilesSelected c st)) = [] /\
  files (snd (clearAllFiles handleFilesSelected c st)) = [].
Proof.
  cbn [removeFile clearAllFiles fst snd uploadedFiles].
  rewrite filter_index_spec.
  split; [reflexivity|]. split; [|split].
  - intros L. rewrite firstn_all2 by assumption.
    rewrite skipn_all2 by lia. apply app_nil_r.
  - intros L. rewrite length_app, length_firstn, length_skipn. lia.
  - repeat split.
Qed.

Lemma remove_resynchronises_witness :
  (0 < List.length (uploadedFiles Samples.listing) /\
   S (List.length
        (uploadedFiles (fst (removeFile handleFilesSelected 0 Samples.listing
                               Samples.initial)))) = 2) /\
  (List.length (uploadedFiles Samples.listing) <= 5 /\
   uploadedFiles (fst (removeFile handleFilesSelected 5 Samples.listing
                         Samples.initial)) =
   uploadedFiles Samples.listing).
Proof.
  assert (0 < List.length (uploadedFiles Samples.listing)) as A by (cbn; lia).
  assert (List.length (uploadedFiles Samples.listing) <= 5) as B by (cbn; lia).
  split; (split; [assumption|]).
  - exact (proj1 (proj2 (proj2 (remove_resynchronises 0 Samples.listing
                                  Samples.initial))) A).
  - exact (proj1 (proj2 (remove_resynchronises 5 Samples.listing
                           Samples.initial)) B).
Defined.

Lemma tick_running (c : Instance) (q : nat) :
  intervals c = [q] ->
  uploadProgress (tick 0 c) = Some (q + 10) /\
  intervals (tick 0 c) = if Nat.leb 100 (q + 10) then [] else [q + 10].
Proof.
  intros H. unfold tick. rewrite H. cbn [nth_error uploadProgress intervals].
  split; [reflexivity|]. now destruct (Nat.leb 100 (q + 10)).
Qed.

Lemma tick_idle (c : Instance) : intervals c = [] -> tick 0 c = c.
Proof. intros H. unfold tick. now rewrite H. Qed.

Lemma tick_progress (A : Type) (onFilesSelected : list File.t -> A -> A)
      (acceptedFiles : list File.t) (c : Instance) (p : A) (n : nat) :
  intervals c = [] ->
  (n < 10 ->
   uploadProgress
     (Nat.iter n (tick 0) (fst (onDrop onFilesSelected acceptedFiles c p)))
   = Some (10 * n) /\
   intervals
     (Nat.iter n (tick 0) (fst (onDrop onFilesSelected acceptedFiles c p)))
   = [10 * n]) /\
  (10 <= n ->
   uploadProgress
     (Nat.iter n (tick 0) (fst (onDrop onFilesSelected acceptedFiles c p)))
   = Some 100 /\
   intervals
     (Nat.iter n (tick 0) (fst (onDrop onFilesSelected acceptedFiles c p)))
   = []).
Proof.
  intros I. induction n as [|n [IHlt IHge]].
  - split; [|lia]. intros _. cbn [Nat.iter onDrop fst uploadProgress intervals].
    now rewrite I.
  - rewrite !Nat.iter_succ. split; intros L.
    + destruct (IHlt ltac:(lia)) as [P T].
      destruct (tick_running _ _ T) as [-> ->].
      assert (Nat.leb 100 (10 * n + 10) = false) as ->
          by (apply Nat.leb_gt; lia).
      split; [apply f_equal | apply (f_equal (fun x => [x]))]; lia.
    + destruct (Nat.eq_dec n 9) as [->|N].
      * destruct (IHlt ltac:(lia)) as [P T].
        destruct (tick_running _ _ T) as [-> ->]. split; reflexivity.
      * destruct (IHge ltac:(lia)) as [P T].
        rewrite (tick_idle _ T). split; assumption.
Qed.

(** X12.  The simulated upload progress that a drop starts goes from 0
    to 100 in steps of 10, one per tick of its interval, and stops
    there: after ten ticks the interval is cleared and further ticks
    change nothing. *)
Theorem simulated_progress
        (acceptedFiles : list File.t) (c : Instance) (st : AppState) (n : nat) :
  intervals c = [] ->
  uploadProgress
    (Nat.iter n (tick 0) (fst (onDrop handleFilesSelected acceptedFiles c st)))
  = Some (Nat.min (10 * n) 100) /\
  intervals
    (Nat.iter n (tick 0) (fst (onDrop handleFilesSelected acceptedFiles c st)))
  = if Nat.ltb n 10 then [10 * n] else [].
Proof.
  intros I.
  destruct (tick_progress _ handleFilesSelected acceptedFiles c st n I)
    as [Hlt Hge].
  destruct (Nat.ltb n 10) eqn:E.
  - apply Nat.ltb_lt in E. destruct (Hlt E) as [-> ->].
    split; [f_equal; lia | reflexivity].
  - apply Nat.ltb_ge in E. destruct (Hge E) as [-> ->].
    split; [f_equal; lia | reflexivity].
Qed.

Lemma simulated_progress_witness :
  intervals Samples.listing = [] /\
  uploadProgress
    (Nat.iter 3 (tick 0)
       (fst (onDrop handleFilesSelected Samples.picked Samples.listing
               Samples.initial))) = Some 30 /\
  uploadProgress
    (Nat.iter 12 (tick 0)
       (fst (onDrop handleFilesSelected Samples.picked Samples.listing
               Samples.initial))) = Some 100.
Proof.
  split; [reflexivity|]. split.
  - exact (proj1 (simulated_progress Samples.picked Samples.listing
                    Samples.initial 3 eq_refl)).
  - exact (proj1 (simulated_progress Samples.picked Samples.listing
                    Samples.initial 12 eq_refl)).
Defined.

End UploaderExtras.

(** ** More about the rendering of a result *)

Module RenderFacts.
Import Spec SpecFacts TrimFacts NarrativeFacts ClassifyFacts PlainFacts.
Import ResultFacts ValidationResults.




(** *** Blank lines and indentation *)

Lemma is_space_lower (c : ascii) : is_space (lower_char c) = is_space c.
Proof. destruct c as [[] [] [] [] [] [] [] []]; reflexivity. Qed.

Lemma trimStart_lower (s : str) :
  toLowerCase (trimStart s) = trimStart (toLowerCase s).
Proof.
  induction s as [|c s IH]; [reflexivity|]. cbn [trimStart toLowerCase map].
  rewrite is_space_lower. destruct (is_space c); [exact IH | reflexivity].
Qed.

Lemma trim_lower (s : str) : toLowerCase (trim s) = trim (toLowerCase s).
Proof.
  unfold trim, trimEnd, toLowerCase.
  rewrite map_rev. fold (toLowerCase (trimStart (rev (trimStart s)))).
  rewrite trimStart_lower. unfold toLowerCase at 1. rewrite map_rev.
  fold (toLowerCase (trimStart s)). now rewrite trimStart_lower.
Qed.

Lemma startsWith_strip (s p : str) :
  startsWith s p =
  match strip_prefix p s with Some _ => true | None => false end.
Proof.
  revert s. induction p as [|a p IH]; intros s; [now destruct s|].
  destruct s as [|b s]; [reflexivity|]. cbn [startsWith strip_prefix].
  destruct (Ascii.eqb a b); [apply IH | reflexivity].
Qed.

Lemma startsWith_blank (k u ws : str) :
  solid k -> blank ws -> k <> [] ->
  startsWith (u ++ ws) k = startsWith u k.
Proof.
  intros Hk Hws Hne. rewrite !startsWith_strip.
  rewrite strip_prefix_blank by auto.
  now destruct (strip_prefix k u).
Qed.

Lemma includes_blank_nil (k ws : str) :
  solid k -> k <> [] -> blank ws -> includes ws k = false.
Proof.
  intros Hk Hne. unfold blank. induction ws as [|w ws IH]; intros H.
  - cbn [includes]. rewrite startsWith_strip.
    destruct k; [congruence | reflexivity].
  - cbn [forallb] in H. apply andb_prop in H as [Hw H].
    cbn [includes]. rewrite startsWith_strip.
    rewrite strip_prefix_space by assumption. now rewrite IH.
Qed.

Lemma includes_blank_around (k ws1 s ws2 : str) :
  solid k -> k <> [] -> blank ws1 -> blank ws2 ->
  includes (ws1 ++ s ++ ws2) k = includes s k.
Proof.
  intros Hk Hne B1 B2.
  assert (includes (s ++ ws2) k = includes s k) as T.
  { induction s as [|c s IH].
    - cbn [app]. rewrite includes_blank_nil by assumption.
      cbn [includes]. rewrite startsWith_strip.
      destruct k; [congruence | reflexivity].
    - change ((c :: s) ++ ws2) with (c :: (s ++ ws2)). cbn [includes].
      change (c :: (s ++ ws2)) with ((c :: s) ++ ws2).
      now rewrite startsWith_blank, IH by assumption. }
  rewrite <- T. clear T. unfold blank in B1.
  induction ws1 as [|w ws1 IH]; [reflexivity|].
  cbn [forallb] in B1. apply andb_prop in B1 as [Hw B1].
  cbn [app includes]. rewrite startsWith_strip.
  rewrite strip_prefix_space by assumption. now apply IH.
Qed.

Lemma includes_trim (k s : str) :
  solid k -> k <> [] -> includes (trim s) k = includes s k.
Proof.
  intros Hk Hne. destruct (trim_split s) as (ws1 & ws2 & B1 & B2 & E).
  rewrite E at 2. now rewrite includes_blank_around.
Qed.

Lemma trigger_trim (l : str) : trigger (trim l) = trigger l.
Proof.
  unfold trigger. rewrite trim_lower.
  now rewrite !includes_trim by (reflexivity || discriminate).
Qed.

Lemma trigger_blank (l : str) : truthy (trim l) = false -> trigger l = None.
Proof.
  intros H. rewrite <- trigger_trim. now destruct (trim l).
Qed.

Lemma visit_blank (acc : section * sections) (l : str) :
  truthy (trim l) = false -> visit acc l = acc.
Proof.
  intros H. unfold visit. rewrite section_after_trigger, trigger_blank, H
    by assumption.
  now destruct acc.
Qed.

Lemma visit_trim (acc : section * sections) (l : str) :
  visit acc (trim l) = visit acc l.
Proof.
  unfold visit.
  now rewrite !section_after_trigger, trigger_trim, trim_idempotent.
Qed.

Lemma fold_visit_non_blank (lines : list str) (acc : section * sections) :
  fold_left visit (non_blank_lines lines) acc = fold_left visit lines acc.
Proof.
  revert acc. unfold non_blank_lines.
  induction lines as [|l lines IH]; intros acc; [reflexivity|].
  cbn [filter fold_left]. destruct (truthy (trim l)) eqn:T.
  - cbn [map fold_left]. now rewrite visit_trim, IH.
  - now rewrite visit_blank, IH.
Qed.

(** *** The way back to [analysis] *)

Lemma trigger_not_analysis (l : str) : trigger l <> Some Analysis.
Proof.
  unfold trigger.
  repeat match goal with
         | |- (if ?c then _ else _) <> _ => destruct c; [discriminate|]
         end.
  discriminate.
Qed.

Lemma analysis_push_other (k : section) (x : str) (secs : sections) :
  k <> Analysis -> analysis (push k x secs) = analysis secs.
Proof. destruct k; [congruence | reflexivity..]. Qed.

Lemma fold_visit_left_analysis (lines : list str) (cur : section)
      (secs : sections) :
  cur <> Analysis ->
  analysis (snd (fold_left visit lines (cur, secs))) = analysis secs.
Proof.
  revert cur secs. induction lines as [|l lines IH]; intros cur secs H;
    [reflexivity|].
  cbn [fold_left]. unfold visit at 2. cbn [fst snd].
  assert (section_after cur l <> Analysis) as H'.
  { rewrite section_after_trigger. pose proof (trigger_not_analysis l) as N.
    destruct (trigger l) as [k|]; [congruence | assumption]. }
  rewrite IH by assumption.
  destruct (truthy (trim l)); [now apply analysis_push_other | reflexivity].
Qed.

Lemma fold_visit_analysis (lines : list str) (secs : sections) :
  analysis (snd (fold_left visit lines (Analysis, secs))) =
  analysis secs ++ non_blank_lines (before_first_trigger lines).
Proof.
  revert secs. unfold non_blank_lines.
  induction lines as [|l lines IH]; intros secs;
    [cbn; now rewrite app_nil_r|].
  cbn [fold_left before_first_trigger]. unfold visit at 2. cbn [fst snd].
  rewrite section_after_trigger.
  pose proof (trigger_not_analysis l) as N.
  destruct (trigger l) as [k|].
  - rewrite fold_visit_left_analysis by congruence.
    cbn [filter map]. rewrite app_nil_r.
    destruct (truthy (trim l)); [|reflexivity].
    apply analysis_push_other. congruence.
  - rewrite IH. cbn [filter].
    destruct (truthy (trim l)); [|reflexivity].
    cbn [push analysis map]. now rewrite <- app_assoc.
Qed.

(** *** The [expandedFiles] object *)




End RenderFacts.

Module RenderExtras.
Import Spec RenderFacts ClassifyFacts ValidationResults.


(** X14.  Blank lines and the white space around a line do not
    matter to the classification: the sections of the lines are those
    of the non-blank lines, trimmed. *)
Theorem classification_ignores_blank_space (lines : list str) :
  classify lines = classify (non_blank_lines lines).
Proof.
  unfold classify. now rewrite fold_visit_non_blank.
Qed.

(** X15.  There is no way back to [analysis]: that section holds the
    non-blank lines in front of the first line that carries a trigger,
    and nothing that comes after it. *)
Theorem analysis_ends_at_first_trigger (lines : list str) :
  analysis (classify lines) = non_blank_lines (before_first_trigger lines).
Proof.
  unfold classify, empty_sections. now rewrite fold_visit_analysis.
Qed.



(** X17.  The icon beside a score agrees with its colour: the check
    mark is shown exactly with the emerald styles; a file whose [try]
    block threw is shown in red with the alert icon. *)
Theorem icon_agrees_with_colour (score : number) :
  (score_icon score = CheckCircle <->
   getStyles score =
   mkStyles (lit "text-emerald-400") (lit "bg-emerald-400/10")
            (lit "border-emerald-400/20")) /\
  (forall file r e,
      App.try_block file r = inl e ->
      getStyles (ValidationResult.score (App.outcome file r)) =
      mkStyles (lit "text-red-400") (lit "bg-red-400/10")
               (lit "border-red-400/20") /\
      score_icon (ValidationResult.score (App.outcome file r)) = AlertCircle).
Proof.
  split.
  - unfold score_icon, getStyles. destruct (at_least score 90).
    + split; reflexivity.
    + destruct (at_least score 70); split; discriminate.
  - intros file r e T. unfold App.outcome. rewrite T. split; reflexivity.
Qed.

Lemma icon_agrees_with_colour_witness :
  score_icon (Num 95) = CheckCircle /\
  getStyles (Num 95) =
    mkStyles (lit "text-emerald-400") (lit "bg-emerald-400/10")
             (lit "border-emerald-400/20") /\
  App.try_block Samples.file_b (Samples.second_rejects 1) =
    inl (App.ErrorObject (lit "Failed to fetch")) /\
  score_icon
    (ValidationResult.score
       (App.outcome Samples.file_b (Samples.second_rejects 1))) = AlertCircle.
Proof.
  split; [reflexivity|]. split; [|split; [reflexivity|]].
  - exact (proj1 (proj1 (icon_agrees_with_colour (Num 95))) eq_refl).
  - exact (proj2 (proj2 (icon_agrees_with_colour NaN)
                    Samples.file_b (Samples.second_rejects 1) _ eq_refl)).
Defined.

(** X18.  The corrected code of a result is highlighted in the
    language named by the extension recorded for its file, and as
    "text" when that extension is empty. *)
Theorem language_is_extension (f : File.t) (r : App.reply) :
  language (App.outcome (App.read_file f) r) =
  match FileWithContent.extension (App.read_file f) with
  | [] => lit "text"
  | c :: e => c :: e
  end.
Proof.
  unfold language.
  destruct (BatchClaims.outcome_fields (App.read_file f) r) as (-> & _ & _).
  cbn [App.read_file FileWithContent.name FileWithContent.extension].
  unfold App.extension_of.
  now destruct (pop (split "." (File.name f))) as [[|c e]|].
Qed.

End RenderExtras.

Module PollerExtras.
Import PollerFacts App Samples.

(** X19.  The poller has no limit of attempts: as long as the judge
    answers with a status that is not terminal, every answer is
    followed by one more timer, and the output stays "Running...". *)
Theorem polling_has_no_limit
        (data : Json.value) (waiting : list poll_reply) (st : AppState) :
  data <> Json.Undefined -> data <> Json.Null ->
  forallb still_running waiting = true ->
  run_and_poll (SubmitResponded data) waiting st =
  (List.length waiting,
   [mkTimer (Json.get (lit "token") data) 1000],
   setExecutionOutput (lit "Running...") st).
Proof.
  intros U N W. unfold run_and_poll. rewrite runCode_submitted by assumption.
  rewrite <- (app_nil_r waiting) at 1.
  rewrite fire_timers_running by assumption. reflexivity.
Qed.

Lemma polling_has_no_limit_witness :
  forallb still_running (repeat queued 50) = true /\
  run_and_poll submitted (repeat queued 50) initial =
  (50, [mkTimer (Json.String (lit "abc")) 1000],
   setExecutionOutput (lit "Running...") initial).
Proof.
  split; [reflexivity|].
  refine (polling_has_no_limit
            (Json.Object [(lit "token", Json.String (lit "abc"))])
            (repeat queued 50) initial _ _ eq_refl); discriminate.
Defined.

(** X20.  Timers never multiply: whatever the judge answers, firing
    the pending timers leaves at most as many timers as there were,
    makes at most one request per answer, and leaves as output either
    what was there or the terminal text of one of the answers. *)
Theorem timers_never_multiply
        (judge : list poll_reply) (n : nat) (timers : list timer)
        (st : AppState) :
  List.length (snd (fst (fire_timers judge n timers st))) <= List.length timers /\
  n <= fst (fst (fire_timers judge n timers st)) <= n + List.length judge /\
  (executionOutput (snd (fire_timers judge n timers st)) = executionOutput st \/
   exists d,
     In (PollResponded d) judge /\ (status_id d > 2)%Z /\
     executionOutput (snd (fire_timers judge n timers st)) = terminal_text d).
Proof.
  revert n timers st. induction judge as [|r judge IH]; intros n timers st.
  - cbn. repeat split; try lia. now left.
  - destruct timers as [|t timers].
    + cbn. repeat split; try lia. now left.
    + cbn [fire_timers].
      destruct (checkResult (token t) r st) as [scheduled st1] eqn:C.
      specialize (IH (S n) (timers ++ scheduled) st1).
      destruct IH as (L & B & O).
      assert (List.length scheduled <= 1 /\
              (executionOutput st1 = executionOutput st \/
               exists d, r = PollResponded d /\ (status_id d > 2)%Z /\
                         executionOutput st1 = terminal_text d)) as [Ls Os].
      { destruct r as [|d]; cbn [checkResult] in C.
        - injection C as <- <-. split; [cbn; lia | now left].
        - destruct (status_id d <=? 2)%Z eqn:E; injection C as <- <-.
          + split; [cbn; lia | now left].
          + split; [cbn; lia|]. right. exists d.
            apply Z.leb_gt in E. split; [reflexivity|].
            split; [lia | reflexivity]. }
      rewrite length_app in L. cbn [List.length]. split; [lia|].
      split; [lia|].
      destruct O as [O | (d & I & T & O)].
      * destruct Os as [Os | (d & -> & T & Os)].
        -- left. congruence.
        -- right. exists d. split; [now left|]. split; [assumption|].
           congruence.
      * right. exists d. split; [now right|]. split; assumption.
Qed.

End PollerExtras.
